(** * create_zip_for_download: the archiver of admin/create_zip_for_download.py

    A shallow embedding of the script: paths and the file system it reads,
    [find_repo_root], [should_skip], the sorted walk of [main] and the
    archive it writes, followed by the properties of the specification.

    Conventions.
    - A [Path] is an absolute POSIX path, given by its components below the
      root; the root itself is [[]].  Python's [Path.parts] puts the anchor
      in front ([parts]).
    - The file system is a tree without symbolic links.  [Special] stands
      for whatever is neither a directory nor a regular file (a socket, a
      FIFO, a device): the script tests [is_dir] and [is_file] one after the
      other, so the third case is kept.
    - The tree is the file system as the walk can list it.  What the
      operating system or [zipfile] refuses on the way (a directory that
      cannot be read, a file that cannot be opened, a timestamp before
      1980, a name that cannot be encoded) is given beside it, as [IO]:
      the walk stops at the first such refusal.
    - File contents and archive payloads are byte strings ([string]: a list
      of 8-bit characters).  Python compares [str] by code point, here by
      byte, which is the same order on UTF-8 text. *)

From Stdlib Require Import List String Ascii Bool Arith Lia.
From Stdlib Require Import Permutation Sorted OrdersEx DecimalString RelationClasses.
Import ListNotations.
Open Scope string_scope.
Open Scope list_scope.

(* ------------------------------------------------------------------ *)
(** ** Paths *)

Definition bytes := string.

Definition Path := list string.

Definition parts (p : Path) : list string := "/" :: p.

(** [Path.name]: the final component, empty for the root. *)
Definition name (p : Path) : string := last p "".

(** [Path.parents]: the proper ancestors, nearest first, root last. *)
Fixpoint parents (p : Path) : list Path :=
  match p with
  | [] => []
  | c :: p' => map (cons c) (parents p') ++ [[]]
  end.

(** [str(path)] of an absolute path. *)
Definition str (p : Path) : string := ("/" ++ String.concat "/" p)%string.

(** [s.split("/")]. *)
Fixpoint split_slash (s : string) : list string :=
  match s with
  | EmptyString => [EmptyString]
  | String c s' =>
      if Ascii.eqb c "/" then EmptyString :: split_slash s'
      else match split_slash s' with
           | [] => [String c EmptyString]
           | w :: ws => String c w :: ws
           end
  end.

(** The components pathlib keeps when it parses a string: empty ones and
    ["."] are dropped, [".."] stays. *)
Definition kept (c : string) : bool := negb (c =? "")%string && negb (c =? ".")%string.

Definition components (s : string) : list string := filter kept (split_slash s).

Definition is_absolute (s : string) : bool :=
  match s with
  | String c _ => Ascii.eqb c "/"
  | EmptyString => false
  end.

(** [path / s]: an absolute right operand replaces the left one; nothing is
    normalised, so [".."] survives.  This is the place the result names;
    the anchor pathlib prints in front of it is [truediv_anchor]. *)
Definition truediv (p : Path) (s : string) : Path :=
  if is_absolute s then components s else p ++ components s.

(** Lexical removal of [".."], as [resolve()] does where there are no
    symbolic links; [".."] at the root stays at the root. *)
Fixpoint normalise (acc : Path) (cs : list string) : Path :=
  match cs with
  | [] => acc
  | c :: cs' => normalise (if (c =? "..")%string then removelast acc else acc ++ [c]) cs'
  end.

(** [Path(s).resolve()] for a process whose working directory is [cwd]. *)
Definition resolve (cwd : Path) (s : string) : Path :=
  normalise [] (if is_absolute s then components s else cwd ++ components s).

(** A relative pure path, as [PurePosixPath] holds it: anchor and tail. *)
Record PurePath := { anchor : string; tail_parts : list string }.

(** [Path.relative_to]: [None] stands for the [ValueError]. *)
Fixpoint relative_to (p base : Path) : option (list string) :=
  match base, p with
  | [], _ => Some p
  | b :: base', c :: p' => if (b =? c)%string then relative_to p' base' else None
  | _ :: _, [] => None
  end.

(** [rel.as_posix()] of a relative path. *)
Definition as_posix (rel : list string) : string :=
  match rel with
  | [] => "."
  | _ => String.concat "/" rel
  end.

(** The anchor pathlib reads off a string: exactly two leading slashes are
    kept as ["//"], any other number collapses to ["/"]. *)
Definition splitroot (s : string) : string :=
  match s with
  | String a s1 =>
      if Ascii.eqb a "/" then
        match s1 with
        | String b s2 =>
            if Ascii.eqb b "/" then
              match s2 with
              | String c _ => if Ascii.eqb c "/" then "/" else "//"
              | EmptyString => "//"
              end
            else "/"
        | EmptyString => "/"
        end
      else ""
  | EmptyString => ""
  end.

(** The anchor of [path / s] for a resolved [path], whose own anchor is
    one slash: an absolute [s] brings its own, which is two slashes when
    [s] starts with exactly two. *)
Definition truediv_anchor (s : string) : string :=
  if is_absolute s then splitroot s else "/".

(** [str] of a path with the given anchor. *)
Definition str_anchored (root : string) (p : Path) : string :=
  (root ++ String.concat "/" p)%string.

Definition PurePosixPath (s : string) : PurePath :=
  {| anchor := splitroot s; tail_parts := components s |}.

(** [str(arc)]. *)
Definition pure_str (a : PurePath) : string :=
  match anchor a, tail_parts a with
  | EmptyString, [] => "."
  | r, t => (r ++ String.concat "/" t)%string
  end.

(* ------------------------------------------------------------------ *)
(** ** The file system *)

#[warnings="-register-all"]
Inductive node : Type :=
| File (content : bytes)
| Dir (entries : list (string * node))
| Special.

Fixpoint assoc (k : string) (es : list (string * node)) : option node :=
  match es with
  | [] => None
  | (k', m) :: es' => if (k =? k')%string then Some m else assoc k es'
  end.

Fixpoint lookup (n : node) (p : list string) : option node :=
  match p with
  | [] => Some n
  | c :: p' =>
      match n with
      | Dir es => match assoc c es with
                  | Some m => lookup m p'
                  | None => None
                  end
      | _ => None
      end
  end.

Definition exists_ (fs : node) (p : Path) : bool :=
  match lookup fs p with Some _ => true | None => false end.

Definition is_dir (fs : node) (p : Path) : bool :=
  match lookup fs p with Some (Dir _) => true | _ => false end.

Definition is_file (fs : node) (p : Path) : bool :=
  match lookup fs p with Some (File _) => true | _ => false end.

(** [p.iterdir()]: the children's paths, in the order the directory lists
    them; [None] where Python raises. *)
Definition iterdir (fs : node) (p : Path) : option (list Path) :=
  match lookup fs p with
  | Some (Dir es) => Some (map (fun e => p ++ [fst e]) es)
  | _ => None
  end.

Definition read_bytes (fs : node) (p : Path) : option bytes :=
  match lookup fs p with
  | Some (File c) => Some c
  | _ => None
  end.

(** Every entry below a node, as a path relative to it. *)
Fixpoint descendants (n : node) : list (list string) :=
  match n with
  | Dir es =>
      flat_map (fun e => [fst e] :: map (cons (fst e)) (descendants (snd e))) es
  | _ => []
  end.

(** [d.rglob("*")]: every entry below [d], files and directories, hidden
    ones too.  pathlib promises no order; the script sorts the result.
    [rglob] passes over a directory it cannot read without a word, so what
    such a directory holds is not in the tree. *)
Definition rglob (fs : node) (d : Path) : list Path :=
  match lookup fs d with
  | Some n => map (app d) (descendants n)
  | None => []
  end.

(** Names a directory can hold: not empty, not ["."] or [".."], no slash
    and no NUL. *)
Fixpoint has_char (a : ascii) (s : string) : bool :=
  match s with
  | EmptyString => false
  | String c s' => Ascii.eqb c a || has_char a s'
  end.

Definition valid_name (s : string) : bool :=
  negb (s =? "")%string && negb (s =? ".")%string && negb (s =? "..")%string
  && negb (has_char "/" s) && negb (has_char "000" s).

Fixpoint distinct (l : list string) : bool :=
  match l with
  | [] => true
  | x :: l' => negb (existsb (String.eqb x) l') && distinct l'
  end.

(** A tree the operating system can present: valid names, no name twice in
    one directory. *)
Fixpoint wf_node (n : node) : bool :=
  match n with
  | Dir es =>
      forallb valid_name (map fst es) && distinct (map fst es)
      && forallb (fun e => wf_node (snd e)) es
  | _ => true
  end.

(* ------------------------------------------------------------------ *)
(** ** The order of [sorted] *)

(** [a < b] on [str]. *)
Definition str_lt (a b : string) : bool :=
  match String_as_OT.compare a b with Lt => true | _ => false end.

(** [a < b] on sequences of strings, as Python compares lists and tuples:
    the first position where the two differ decides, a proper prefix is
    smaller. *)
Fixpoint seq_lt (a b : list string) : bool :=
  match a, b with
  | [], [] => false
  | [], _ :: _ => true
  | _ :: _, [] => false
  | x :: a', y :: b' => if (x =? y)%string then seq_lt a' b' else str_lt x y
  end.

(** [Path.__lt__]: paths compare by their sequence of parts, not by their
    string. *)
Definition path_lt (p q : Path) : bool := seq_lt (parts p) (parts q).

Definition path_le (p q : Path) : Prop := path_lt q p = false.

(** [sorted]: a stable sort that asks only for [<]. *)
Fixpoint insert (p : Path) (l : list Path) : list Path :=
  match l with
  | [] => [p]
  | q :: l' => if path_lt q p then q :: insert p l' else p :: q :: l'
  end.

Fixpoint sorted (l : list Path) : list Path :=
  match l with
  | [] => []
  | p :: l' => insert p (sorted l')
  end.

(* ------------------------------------------------------------------ *)
(** ** The denylist *)

Definition denylist : list string := [".DS_Store"; "Thumbs.db"].

Definition cache_dir : string := "__pycache__".

Definition in_denylist (s : string) : bool := existsb (String.eqb s) denylist.

Definition has_cache_part (p : Path) : bool := existsb (String.eqb cache_dir) (parts p).

Definition should_skip (path : Path) : bool :=
  let name := name path in
  if in_denylist name then true
  else if has_cache_part path then true
  else false.

(* ------------------------------------------------------------------ *)
(** ** The archive and the loop of [main] *)

(** The exceptions that leave [main].  The text of an [OSError] is the
    operating system's; only its kind is kept. *)
Inductive exn : Type :=
| RuntimeError (msg : string)
| FileNotFoundError (msg : string)
| ValueError (msg : string)
| OSError (msg : string).

Definition exn_str (e : exn) : string :=
  match e with
  | RuntimeError m | FileNotFoundError m | ValueError m | OSError m => m
  end.

Record ZipEntry := { filename : string; data : bytes }.

(** What the [with ZipFile(...)] block mutates: the entries written so far
    and the two counters. *)
Record Loop := { z : list ZipEntry; files_added : nat; dirs_added : nat }.

Definition Loop0 : Loop := {| z := []; files_added := 0; dirs_added := 0 |}.

(** [z.writestr(arcname, payload)] and [z.write(p, arcname=...)], the latter
    with the bytes read from [p].  [zipfile] stores a name that has no
    empty, [.] or [..] component as it is given. *)
Definition writestr (st : Loop) (arcname : string) (payload : bytes) : list ZipEntry :=
  z st ++ [ {| filename := arcname; data := payload |} ].

Definition write (st : Loop) (content : bytes) (arcname : string) : list ZipEntry :=
  z st ++ [ {| filename := arcname; data := content |} ].

(** What the walk can be refused.  [stat_fault p] is the exception of
    [p.is_dir()] and [p.is_file()] where the status of [p] cannot be read;
    [iterdir_fault p] that of [p.iterdir()] on a directory that cannot be
    listed; [read_fault p] that of [z.write(p, ...)] where the file cannot
    be opened or carries a timestamp before 1980; [name_fault s] that of
    writing an entry whose name [s] cannot be encoded.  [own_bytes l] is
    what a reader finds in the archive file itself while the entries [l]
    have been written to it and it is still open; a copy of the archive
    into itself that goes on until the disk is full is a refusal of
    [read_fault]. *)
Record IO := {
  stat_fault : Path -> option exn;
  iterdir_fault : Path -> option exn;
  read_fault : Path -> option exn;
  name_fault : string -> option exn;
  own_bytes : list ZipEntry -> bytes }.

Definition same_path (p q : Path) : bool :=
  if list_eq_dec string_dec p q then true else false.

Definition os_is_dir (io : IO) (fs : node) (p : Path) : exn + bool :=
  match stat_fault io p with
  | Some e => inl e
  | None => inr (is_dir fs p)
  end.

Definition os_is_file (io : IO) (fs : node) (p : Path) : exn + bool :=
  match stat_fault io p with
  | Some e => inl e
  | None => inr (is_file fs p)
  end.

Definition os_iterdir (io : IO) (fs : node) (p : Path) : exn + list Path :=
  match iterdir_fault io p with
  | Some e => inl e
  | None =>
      match iterdir fs p with
      | Some children => inr children
      | None => inl (OSError "iterdir")
      end
  end.

(** [z.writestr(arcname, payload)], which may refuse the name. *)
Definition zip_writestr (io : IO) (st : Loop) (arcname : string) (payload : bytes)
  : exn + list ZipEntry :=
  match name_fault io arcname with
  | Some e => inl e
  | None => inr (writestr st arcname payload)
  end.

(** [z.write(p, arcname=...)]: the file is examined and opened, then the
    entry is begun under its name, then the bytes are copied.  The bytes of
    the archive itself, open at [handle], are those a reader finds there
    at that moment. *)
Definition zip_write (io : IO) (handle : Path) (fs : node) (st : Loop)
           (p : Path) (arcname : string) : exn + list ZipEntry :=
  match read_fault io p with
  | Some e => inl e
  | None =>
      match name_fault io arcname with
      | Some e => inl e
      | None =>
          match read_bytes fs p with
          | Some c =>
              inr (write st (if same_path p handle then own_bytes io (z st) else c)
                         arcname)
          | None => inl (OSError "read")
          end
      end
  end.

(** One turn of [for p in sorted(docs_dir.rglob("*"))], with the archive
    open at [handle]. *)
Definition visit (io : IO) (handle : Path) (fs : node) (docs_dir : Path)
           (st : Loop) (p : Path) : exn + Loop :=
  if should_skip p then inr st
  else
    match relative_to p docs_dir with
    | None => inl (ValueError "path is not in the subpath of docs_dir")
    | Some rel =>
        let arc := PurePosixPath (as_posix rel) in
        match os_is_dir io fs p with
        | inl e => inl e
        | inr true =>
            match os_iterdir io fs p with
            | inl e => inl e
            | inr children =>
                if negb (existsb (fun _ => true) children) then
                  match zip_writestr io st (pure_str arc ++ "/")%string "" with
                  | inl e => inl e
                  | inr z' =>
                      inr {| z := z';
                             files_added := files_added st;
                             dirs_added := dirs_added st + 1 |}
                  end
                else inr st
            end
        | inr false =>
            match os_is_file io fs p with
            | inl e => inl e
            | inr true =>
                match zip_write io handle fs st p (pure_str arc) with
                | inl e => inl e
                | inr z' =>
                    inr {| z := z';
                           files_added := files_added st + 1;
                           dirs_added := dirs_added st |}
                end
            | inr false => inr st
            end
        end
    end.

(** The [for] loop: an exception leaves it at once, with what was written
    before. *)
Fixpoint for_each (body : Loop -> Path -> exn + Loop) (st : Loop) (l : list Path)
  : option exn * Loop :=
  match l with
  | [] => (None, st)
  | p :: l' =>
      match body st p with
      | inl e => (Some e, st)
      | inr st' => for_each body st' l'
      end
  end.

(** The block under [with ZipFile(...) as z], for a directory listing that
    [rglob] returned in the order [listing]. *)
Definition archive_listing (io : IO) (handle : Path) (fs : node) (docs_dir : Path)
           (listing : list Path) : option exn * Loop :=
  for_each (visit io handle fs docs_dir) Loop0 (sorted listing).

Definition archive (io : IO) (handle : Path) (fs : node) (docs_dir : Path)
  : option exn * Loop :=
  archive_listing io handle fs docs_dir (rglob fs docs_dir).

Definition archive_entries (io : IO) (handle : Path) (fs : node) (docs_dir : Path)
  : list ZipEntry :=
  z (snd (archive io handle fs docs_dir)).

Definition names (l : list ZipEntry) : list string := map filename l.

Definition named (s : string) (l : list ZipEntry) : list ZipEntry :=
  filter (fun e => (filename e =? s)%string) l.

(* ------------------------------------------------------------------ *)
(** ** Writing to the file system *)

Fixpoint update (k : string) (m : node) (es : list (string * node))
  : list (string * node) :=
  match es with
  | [] => [(k, m)]
  | (k', m') :: es' =>
      if (k =? k')%string then (k, m) :: es' else (k', m') :: update k m es'
  end.

(** [mkdir(parents=True, exist_ok=True)]: missing directories are made,
    existing ones accepted; [None] where a component is not a directory. *)
Fixpoint mkdir_p (n : node) (p : list string) : option node :=
  match n with
  | Dir es =>
      match p with
      | [] => Some n
      | c :: p' =>
          match mkdir_p (match assoc c es with Some m => m | None => Dir [] end) p' with
          | Some m' => Some (Dir (update c m' es))
          | None => None
          end
      end
  | _ => None
  end.

(** The file at a resolved location gets the content [c]: made if absent
    in an existing directory, truncated if it is a regular file. *)
Fixpoint write_at (n : node) (p : list string) (c : bytes) : option node :=
  match p with
  | [] => match n with File _ => Some (File c) | _ => None end
  | k :: p' =>
      match n with
      | Dir es =>
          match assoc k es with
          | Some m =>
              match write_at m p' c with
              | Some m' => Some (Dir (update k m' es))
              | None => None
              end
          | None =>
              match p' with
              | [] => Some (Dir (update k (File c) es))
              | _ => None
              end
          end
      | _ => None
      end
  end.

(** How the kernel walks a path that may hold [".."]: every component but
    the last is looked up in a directory that must exist. *)
Fixpoint namei (fs : node) (cur : Path) (cs : list string) : option Path :=
  match cs with
  | [] => Some cur
  | c :: cs' =>
      if is_dir fs cur
      then namei fs (if (c =? "..")%string then removelast cur else cur ++ [c]) cs'
      else None
  end.

Definition stat (fs : node) (p : Path) : option node :=
  match namei fs [] p with
  | Some q => lookup fs q
  | None => None
  end.

(** [open(p, "w+b")]: the location the handle refers to and the file system
    with the empty file in place. *)
Definition open_w (fs : node) (p : Path) : option (Path * node) :=
  match namei fs [] p with
  | Some q => match write_at fs q "" with
              | Some fs' => Some (q, fs')
              | None => None
              end
  | None => None
  end.

(** Closing the handle leaves the bytes written through it in the file. *)
Definition close_w (fs : node) (handle : Path) (c : bytes) : node :=
  match write_at fs handle c with
  | Some fs' => fs'
  | None => fs
  end.

(* ------------------------------------------------------------------ *)
(** ** The run *)

(** What [argparse] hands over: each flag is absent or a string. *)
Record Args := {
  arg_docs_dir : option string;
  arg_out_dir : option string;
  arg_stamp : option string }.

(** What the process finds around it: where the script lives (resolved),
    its working directory, what [git rev-parse --show-toplevel] answered
    ([None] for any failure of that [try] block) and the date
    [london_now_stamp] computes. *)
Record Env := {
  script_dir : Path;
  cwd : Path;
  git_toplevel : option Path;
  today : string }.

(** Truth of an optional string in a condition: absent and empty are both
    false. *)
Definition truthy (o : option string) : option string :=
  match o with
  | Some (String _ _ as s) => Some s
  | _ => None
  end.

Definition find_repo_root (git : option Path) (fs : node) (start : Path) : exn + Path :=
  match git with
  | Some top => inr top
  | None =>
      let cur := start in
      match find (fun p => exists_ fs (truediv p ".git")) (cur :: parents cur) with
      | Some p => inr p
      | None =>
          inl (RuntimeError "Could not find repo root (no git and no .git folder found)")
      end
  end.

Definition london_now_stamp (env : Env) : string := today env.

Definition show_nat (n : nat) : string := NilEmpty.string_of_uint (Nat.to_uint n).

(** The paths [main] works out before it opens the archive. *)
Definition docs_dir_of (args : Args) (env : Env) (repo_root : Path) : Path :=
  match truthy (arg_docs_dir args) with
  | Some s => resolve (cwd env) s
  | None => truediv repo_root "export_data/inspection_reports"
  end.

Definition out_dir_of (args : Args) (env : Env) (repo_root : Path) : Path :=
  match truthy (arg_out_dir args) with
  | Some s => resolve (cwd env) s
  | None => truediv repo_root ""
  end.

(** [args.stamp or london_now_stamp()]. *)
Definition stamp_of (args : Args) (env : Env) : string :=
  match truthy (arg_stamp args) with
  | Some s => s
  | None => london_now_stamp env
  end.

Definition zip_path_of (args : Args) (env : Env) (repo_root : Path) : Path :=
  let repo_name := name repo_root in
  truediv (out_dir_of args env repo_root)
          (stamp_of args env ++ "_" ++ repo_name ++ ".zip")%string.

(** [str(zip_path)], as [print] shows it. *)
Definition zip_path_str (args : Args) (env : Env) (repo_root : Path) : string :=
  str_anchored
    (truediv_anchor (stamp_of args env ++ "_" ++ name repo_root ++ ".zip"))
    (zip_path_of args env repo_root).

Definition report (zip_path : string) (st : Loop) : list string :=
  [("Created: " ++ zip_path)%string;
   ("Added files: " ++ show_nat (files_added st)
      ++ ", empty dirs also kept: " ++ show_nat (dirs_added st))%string].

Definition not_found (docs_dir : Path) : exn :=
  FileNotFoundError
    ("export_data/inspection_reports folder not found: " ++ str docs_dir)%string.

Section Run.

(** The bytes of a deflated zip archive holding the given entries in the
    given order; the container format is that of [zipfile]. *)
Variable zip_bytes : list ZipEntry -> bytes.

(** What the operating system and [zipfile] refuse during this run. *)
Variable io : IO.

(** [main]: the value returned or the exception raised, what was printed,
    and the file system left behind.  Leaving the [with] block closes the
    archive over the entries written, whether the walk raised or not. *)
Definition main (args : Args) (env : Env) (fs : node)
  : (exn + nat) * list string * node :=
  match find_repo_root (git_toplevel env) fs (script_dir env) with
  | inl e => (inl e, [], fs)
  | inr repo_root =>
      let docs_dir := docs_dir_of args env repo_root in
      if negb (exists_ fs docs_dir) || negb (is_dir fs docs_dir) then
        (inl (not_found docs_dir), [], fs)
      else
        let out_dir := out_dir_of args env repo_root in
        match mkdir_p fs out_dir with
        | None => (inl (OSError "mkdir"), [], fs)
        | Some fs1 =>
            let zip_path := zip_path_of args env repo_root in
            match open_w fs1 zip_path with
            | None => (inl (OSError "open"), [], fs1)
            | Some (handle, fs2) =>
                let (raised, st) := archive io handle fs2 docs_dir in
                let fs3 := close_w fs2 handle (zip_bytes (z st)) in
                match raised with
                | Some e => (inl e, [], fs3)
                | None => (inr 0, report (zip_path_str args env repo_root) st, fs3)
                end
            end
        end
  end.

Record Outcome := {
  exit_code : nat;
  stdout : list string;
  stderr : list string;
  fs_after : node }.

(** The [__main__] block: [SystemExit(main())] ends the process with the
    value returned; an exception is printed behind [ERROR:] and raised
    again, which ends the process with status 1. *)
Definition run (args : Args) (env : Env) (fs : node) : Outcome :=
  match main args env fs with
  | (inr code, out, fs') =>
      {| exit_code := code; stdout := out; stderr := []; fs_after := fs' |}
  | (inl e, out, fs') =>
      {| exit_code := 1; stdout := out;
         stderr := [("ERROR: " ++ exn_str e)%string]; fs_after := fs' |}
  end.

End Run.

(* ------------------------------------------------------------------ *)
(** ** Vocabulary of the properties *)

Definition no_slash (c : string) : Prop := has_char "/" c = false.

Definition valid_names (l : list string) : Prop :=
  Forall (fun c => valid_name c = true) l.

(** What one turn of the loop adds to the archive when nothing is refused;
    [own] stands for the bytes read from the archive itself. *)
Definition emit (handle : Path) (own : bytes) (fs : node) (docs_dir : Path) (p : Path)
  : list ZipEntry :=
  if should_skip p then []
  else
    match relative_to p docs_dir with
    | None => []
    | Some rel =>
        let arc := pure_str (PurePosixPath (as_posix rel)) in
        match lookup fs p with
        | Some (Dir []) => [ {| filename := (arc ++ "/")%string; data := "" |} ]
        | Some (File c) =>
            [ {| filename := arc; data := if same_path p handle then own else c |} ]
        | _ => []
        end
    end.

(** The exception one turn of the loop raises, if any. *)
Definition fault_at (io : IO) (fs : node) (docs_dir : Path) (p : Path) : option exn :=
  if should_skip p then None
  else
    match relative_to p docs_dir with
    | None => Some (ValueError "path is not in the subpath of docs_dir")
    | Some rel =>
        let arc := pure_str (PurePosixPath (as_posix rel)) in
        match stat_fault io p with
        | Some e => Some e
        | None =>
            match lookup fs p with
            | Some (Dir es) =>
                match iterdir_fault io p with
                | Some e => Some e
                | None =>
                    match es with
                    | [] => name_fault io (arc ++ "/")%string
                    | _ :: _ => None
                    end
                end
            | Some (File _) =>
                match read_fault io p with
                | Some e => Some e
                | None => name_fault io arc
                end
            | _ => None
            end
        end
    end.

(** The archive name of the entry at [rel] below the source directory. *)
Definition arcname (rel : list string) : string := String.concat "/" rel.


(** A tree to evaluate the script on: a repository whose source directory
    holds a file, an empty directory, a cache directory, a directory and a
    file whose names share a prefix, directories named like the denylisted
    files, and a directory holding nothing but noise. *)
Definition example_docs : Path := ["repo"; "export_data"; "inspection_reports"].

Definition example_fs : node :=
  Dir [("repo", Dir
    [(".git", Dir []);
     ("admin", Dir [("create_zip_for_download.py", File "#!/usr/bin/env python3")]);
     ("export_data", Dir [("inspection_reports", Dir
        [("x.txt", File "hello");
         ("sub", Dir []);
         ("__pycache__", Dir [("y.txt", File "y")]);
         ("report", Dir [("x", File "1")]);
         ("report.pdf", File "2");
         (".DS_Store", Dir [("a.txt", File "a")]);
         ("only_noise", Dir [(".DS_Store", File "n")]);
         ("d", Dir [("Thumbs.db", Dir [("x.txt", File "t")])])])])])].


(* ------------------------------------------------------------------ *)
(** ** The specification's wording, where it is compared with the script *)

(** The order the specification names for the walk: by the string of the
    whole path. *)
Definition str_path_lt (p q : Path) : bool := str_lt (str p) (str q).

(** No element is followed by a smaller one. *)
Fixpoint ascending (lt : Path -> Path -> bool) (l : list Path) : bool :=
  match l with
  | [] => true
  | p :: l' =>
      match l' with
      | [] => true
      | q :: _ => negb (lt q p) && ascending lt l'
      end
  end.

Definition visits_in_string_order (fs : node) (docs_dir : Path) : Prop :=
  ascending str_path_lt (sorted (rglob fs docs_dir)) = true.

(** A walk that prunes: an entry for which [skip] holds is left out and, if
    it is a directory, never entered. *)
Fixpoint walk_prune (skip : Path -> bool) (here : Path) (n : node) : list Path :=
  match n with
  | Dir es =>
      flat_map (fun e =>
                  if skip (here ++ [fst e]) then []
                  else (here ++ [fst e]) :: walk_prune skip (here ++ [fst e]) (snd e))
               es
  | _ => []
  end.

Definition rglob_prune (skip : Path -> bool) (fs : node) (d : Path) : list Path :=
  match lookup fs d with
  | Some n => walk_prune skip d n
  | None => []
  end.

(** The loop of [main] over the pruning walk. *)
Definition archive_prune (io : IO) (handle : Path) (skip : Path -> bool)
           (fs : node) (docs_dir : Path) : option exn * Loop :=
  archive_listing io handle fs docs_dir (rglob_prune skip fs docs_dir).

Definition same_entries (a b : list ZipEntry) : Prop :=
  forall e, In e a <-> In e b.

(** The equivalence as the specification states it: pruning at every
    denylisted directory changes nothing. *)
Definition prune_equivalent (io : IO) (handle : Path) (fs : node) (docs_dir : Path)
  : Prop :=
  same_entries (archive_entries io handle fs docs_dir)
               (z (snd (archive_prune io handle should_skip fs docs_dir))).

(** The directory at [d] has children, and each of them is denylisted. *)
Definition children_denylisted (fs : node) (d : Path) : Prop :=
  exists es, lookup fs d = Some (Dir es) /\ es <> []
             /\ forall k m, In (k, m) es -> should_skip (d ++ [k]) = true.

(** Nothing in the archive is the directory at [rel] or lies below it. *)
Definition absent_from_archive (io : IO) (handle : Path) (fs : node) (docs_dir : Path)
           (rel : list string) : Prop :=
  forall e, In e (archive_entries io handle fs docs_dir) ->
            filename e <> arcname rel
            /\ String.prefix (arcname rel ++ "/") (filename e) = false.


(** The walk for the root as the specification words it: the first
    directory, from the starting one upwards, that holds a [.git] which is
    a directory. *)
Definition walk_finds_git_directory (fs : node) (start : Path) : Prop :=
  forall p, find_repo_root None fs start = inr p ->
            is_dir fs (truediv p ".git") = true.

(** [p] is the first element of [l] that holds an entry named [.git]. *)
Definition first_with_git (fs : node) (p : Path) (l : list Path) : Prop :=
  exists l1 l2, l = l1 ++ p :: l2
                /\ exists_ fs (truediv p ".git") = true
                /\ forall q, In q l1 -> exists_ fs (truediv q ".git") = false.


(** A checkout with a linked worktree inside: [/repo/.git] is a directory,
    [/repo/wt/.git] a file, as [git worktree add] and submodules leave it. *)
Definition worktree_fs : node :=
  Dir [("repo", Dir
    [(".git", Dir []);
     ("wt", Dir [(".git", File "gitdir: /repo/.git/worktrees/wt");
                 ("admin", Dir [])])])].

Definition example_env : Env :=
  {| script_dir := ["repo"; "admin"]; cwd := ["repo"];
     git_toplevel := None; today := "20261104" |}.

Definition no_args : Args :=
  {| arg_docs_dir := None; arg_out_dir := None; arg_stamp := None |}.

(** An environment that refuses nothing, and one in which a single file
    cannot be opened. *)
Definition no_faults : IO :=
  {| stat_fault := fun _ => None;
     iterdir_fault := fun _ => None;
     read_fault := fun _ => None;
     name_fault := fun _ => None;
     own_bytes := fun _ => ""%string |}.


(** Where the example's archive is open during the walk. *)
Definition example_zip : Path := ["repo"; "20261104_repo.zip"].

(** An environment in which a reader of the archive under construction
    finds the names written so far, and the example with an archive just
    opened inside its source directory. *)
Definition echo_io : IO :=
  {| stat_fault := fun _ => None;
     iterdir_fault := fun _ => None;
     read_fault := fun _ => None;
     name_fault := fun _ => None;
     own_bytes := fun l => String.concat ";" (map filename l) |}.

Definition inside_fs : node :=
  match open_w example_fs (example_docs ++ ["own.zip"]) with
  | Some (_, fs2) => fs2
  | None => example_fs
  end.

(** A stand-in for the container format, to evaluate runs with. *)
Definition listing_bytes (l : list ZipEntry) : bytes :=
  String.concat ";" (map filename l).


(* ------------------------------------------------------------------ *)
(** ** Vocabulary of the further properties *)

(** The paths [main] counts: a regular file that is not skipped adds one to
    [files_added], an empty directory that is not skipped one to
    [dirs_added]. *)
Definition counted_file (fs : node) (p : Path) : bool :=
  negb (should_skip p) && is_file fs p.

Definition is_empty_dir (fs : node) (p : Path) : bool :=
  match lookup fs p with
  | Some (Dir []) => true
  | _ => false
  end.

Definition counted_dir (fs : node) (p : Path) : bool :=
  negb (should_skip p) && is_empty_dir fs p.

(** The order of two archive names by their components. *)
Definition name_le (a b : ZipEntry) : Prop :=
  seq_lt (components (filename b)) (components (filename a)) = false.

(** The example's source tree alone, everything around it gone. *)
Definition bare_fs : node :=
  match lookup example_fs example_docs with
  | Some n => Dir [("repo", Dir [("export_data", Dir [("inspection_reports", n)])])]
  | None => Dir []
  end.

(* ------------------------------------------------------------------ *)
(** ** The walk inside the run *)

(** The run gets as far as the walk: the root is [repo_root], the source
    directory is one, the output directory is made, and the archive is
    open at [handle] in the file system [fs2], which is what the walk
    reads. *)
Definition reaches_walk (args : Args) (env : Env) (fs : node)
           (repo_root : Path) (handle : Path) (fs2 : node) : Prop :=
  exists fs1,
    find_repo_root (git_toplevel env) fs (script_dir env) = inr repo_root
    /\ is_dir fs (docs_dir_of args env repo_root) = true
    /\ mkdir_p fs (out_dir_of args env repo_root) = Some fs1
    /\ open_w fs1 (zip_path_of args env repo_root) = Some (handle, fs2).




(* ================================================================== *)
(** * Properties *)

(* ------------------------------------------------------------------ *)
(** ** The order on strings, on sequences and on paths *)

Lemma str_lt_iff (x y : string) : str_lt x y = true <-> String_as_OT.lt x y.
Proof.
  unfold str_lt, String_as_OT.lt.
  destruct (String_as_OT.compare x y); split; congruence.
Qed.

Lemma str_lt_irrefl (x : string) : str_lt x x = false.
Proof.
  destruct (str_lt x x) eqn:E; [|reflexivity].
  apply str_lt_iff in E.
  destruct (StrictOrder_Irreflexive (R := String_as_OT.lt) x E).
Qed.

Lemma str_lt_trans (x y z : string) :
  str_lt x y = true -> str_lt y z = true -> str_lt x z = true.
Proof.
  rewrite !str_lt_iff. apply (StrictOrder_Transitive (R := String_as_OT.lt)).
Qed.

Lemma str_lt_total (x y : string) :
  x <> y -> str_lt x y = false -> str_lt y x = true.
Proof.
  intros Hne Hxy.
  destruct (String_as_OT.compare_spec x y) as [E|L|G].
  - contradiction.
  - apply str_lt_iff in L. congruence.
  - now apply str_lt_iff.
Qed.

Lemma seq_lt_irrefl (a : list string) : seq_lt a a = false.
Proof.
  induction a as [|x a IH]; simpl; [reflexivity|].
  now rewrite String.eqb_refl.
Qed.

Lemma seq_lt_trans (a b c : list string) :
  seq_lt a b = true -> seq_lt b c = true -> seq_lt a c = true.
Proof.
  revert b c.
  induction a as [|x a IH]; intros [|y b] [|w c]; simpl; try congruence.
  destruct (String.eqb_spec x y) as [->|Nxy].
  - destruct (String.eqb_spec y w) as [->|Nyw]; [apply IH|tauto].
  - destruct (String.eqb_spec y w) as [->|Nyw].
    + destruct (String.eqb_spec x w); [contradiction|tauto].
    + intros Hxy Hyw.
      destruct (String.eqb_spec x w) as [->|Nxw].
      * pose proof (str_lt_trans _ _ _ Hxy Hyw) as H.
        rewrite str_lt_irrefl in H. discriminate.
      * eapply str_lt_trans; eassumption.
Qed.

Lemma seq_lt_total (a b : list string) :
  a <> b -> seq_lt a b = false -> seq_lt b a = true.
Proof.
  revert b.
  induction a as [|x a IH]; intros [|y b]; simpl; try congruence.
  rewrite (String.eqb_sym y x).
  destruct (String.eqb_spec x y) as [->|Nxy].
  - intros Hne. apply IH. congruence.
  - intros _. now apply str_lt_total.
Qed.

Lemma path_lt_seq (p q : Path) : path_lt p q = seq_lt p q.
Proof. reflexivity. Qed.

Lemma path_lt_irrefl (p : Path) : path_lt p p = false.
Proof. rewrite path_lt_seq. apply seq_lt_irrefl. Qed.

Lemma path_lt_trans (p q r : Path) :
  path_lt p q = true -> path_lt q r = true -> path_lt p r = true.
Proof. rewrite !path_lt_seq. apply seq_lt_trans. Qed.

Lemma path_lt_total (p q : Path) :
  p <> q -> path_lt p q = false -> path_lt q p = true.
Proof. rewrite !path_lt_seq. apply seq_lt_total. Qed.

Lemma path_lt_asym (p q : Path) : path_lt p q = true -> path_lt q p = false.
Proof.
  intros H. destruct (path_lt q p) eqn:E; [|reflexivity].
  pose proof (path_lt_trans _ _ _ H E) as K.
  rewrite path_lt_irrefl in K. discriminate.
Qed.

Lemma path_le_refl (p : Path) : path_le p p.
Proof. apply path_lt_irrefl. Qed.

Lemma path_le_trans (p q r : Path) : path_le p q -> path_le q r -> path_le p r.
Proof.
  unfold path_le. intros Hqp Hrq.
  destruct (path_lt r p) eqn:E; [|reflexivity].
  destruct (list_eq_dec string_dec p q) as [->|Npq]; [congruence|].
  pose proof (path_lt_total _ _ (not_eq_sym Npq) Hqp) as Hpq.
  pose proof (path_lt_trans _ _ _ E Hpq). congruence.
Qed.

Lemma path_le_antisym (p q : Path) : path_le p q -> path_le q p -> p = q.
Proof.
  unfold path_le. intros Hqp Hpq.
  destruct (list_eq_dec string_dec p q) as [|N]; [assumption|].
  pose proof (path_lt_total _ _ N Hpq). congruence.
Qed.

(* ------------------------------------------------------------------ *)
(** ** [sorted] *)

Lemma insert_perm (p : Path) (l : list Path) : Permutation (insert p l) (p :: l).
Proof.
  induction l as [|q l IH]; simpl; [reflexivity|].
  destruct (path_lt q p); [|reflexivity].
  rewrite IH. apply perm_swap.
Qed.

Lemma sorted_perm (l : list Path) : Permutation (sorted l) l.
Proof.
  induction l as [|p l IH]; simpl; [reflexivity|].
  rewrite insert_perm. now constructor.
Qed.

Lemma insert_sorted (p : Path) (l : list Path) :
  StronglySorted path_le l -> StronglySorted path_le (insert p l).
Proof.
  induction 1 as [|q l Hs IH Hq]; simpl.
  - repeat constructor.
  - destruct (path_lt q p) eqn:E.
    + constructor; [assumption|].
      rewrite Forall_forall in *. intros x Hx.
      apply (Permutation_in _ (insert_perm p l)) in Hx.
      destruct Hx as [<-|Hx]; [now apply path_lt_asym | now apply Hq].
    + constructor; [now constructor|].
      constructor; [exact E|].
      rewrite Forall_forall in *. intros x Hx.
      apply path_le_trans with q; [exact E | now apply Hq].
Qed.

Lemma sorted_sorted (l : list Path) : StronglySorted path_le (sorted l).
Proof.
  induction l as [|p l IH]; simpl; [constructor | now apply insert_sorted].
Qed.

Lemma sorted_unique (l1 l2 : list Path) :
  StronglySorted path_le l1 -> StronglySorted path_le l2 ->
  Permutation l1 l2 -> l1 = l2.
Proof.
  intros H1. revert l2.
  induction H1 as [|a l1 Hs IH Ha]; intros l2 H2 HP.
  - now apply Permutation_nil in HP.
  - destruct H2 as [|b l2 Hs2 Hb].
    + symmetry in HP. now apply Permutation_nil in HP.
    + assert (a = b) as ->.
      { rewrite Forall_forall in Ha, Hb.
        assert (In a (b :: l2)) as [->|Ia]
          by (apply (Permutation_in _ HP); now left); [reflexivity|].
        assert (In b (a :: l1)) as [->|Ib]
          by (apply (Permutation_in _ (Permutation_sym HP)); now left); [reflexivity|].
        apply path_le_antisym; auto. }
      f_equal. apply IH; [assumption|].
      now apply Permutation_cons_inv in HP.
Qed.

Lemma sorted_of_perm (l1 l2 : list Path) :
  Permutation l1 l2 -> sorted l1 = sorted l2.
Proof.
  intros HP. apply sorted_unique; try apply sorted_sorted.
  now rewrite !sorted_perm.
Qed.

Lemma filter_strongly_sorted (f : Path -> bool) (l : list Path) :
  StronglySorted path_le l -> StronglySorted path_le (filter f l).
Proof.
  induction 1 as [|a l Hs IH Ha]; simpl; [constructor|].
  destruct (f a); [|assumption].
  constructor; [assumption|].
  rewrite Forall_forall in *. intros x Hx.
  apply filter_In in Hx. now apply Ha.
Qed.

Lemma filter_perm {A : Type} (f : A -> bool) (l l' : list A) :
  Permutation l l' -> Permutation (filter f l) (filter f l').
Proof.
  induction 1 as [|x l l' _ IH|x y l|l l' l'' _ IH1 _ IH2]; simpl.
  - constructor.
  - destruct (f x); [now constructor | assumption].
  - destruct (f x), (f y); try reflexivity. apply perm_swap.
  - now transitivity (filter f l').
Qed.

Lemma filter_sorted (f : Path -> bool) (l : list Path) :
  filter f (sorted l) = sorted (filter f l).
Proof.
  apply sorted_unique.
  - apply filter_strongly_sorted, sorted_sorted.
  - apply sorted_sorted.
  - transitivity (filter f l).
    + apply filter_perm, sorted_perm.
    + symmetry. apply sorted_perm.
Qed.

(* ------------------------------------------------------------------ *)
(** ** Strings: splitting and joining on the slash *)

Lemma split_slash_nonempty (s : string) : split_slash s <> [].
Proof.
  destruct s as [|c s]; simpl; [discriminate|].
  destruct (Ascii.eqb c "/"); [discriminate|].
  destruct (split_slash s); discriminate.
Qed.

Lemma split_slash_plain (s : string) :
  has_char "/" s = false -> split_slash s = [s].
Proof.
  induction s as [|c s IH]; simpl; [reflexivity|].
  intros H. apply orb_false_elim in H as [Hc Hs].
  rewrite Hc, (IH Hs). reflexivity.
Qed.

Lemma split_slash_app (a b : string) :
  split_slash (a ++ String "/" b)%string = split_slash a ++ split_slash b.
Proof.
  induction a as [|c a IH]; simpl; [reflexivity|].
  destruct (Ascii.eqb c "/"); rewrite IH; [reflexivity|].
  pose proof (split_slash_nonempty a).
  destruct (split_slash a); [contradiction | reflexivity].
Qed.

Lemma split_concat (l : list string) :
  l <> [] -> Forall no_slash l -> split_slash (String.concat "/" l) = l.
Proof.
  induction l as [|x l IH]; [congruence|].
  intros _ H. inversion_clear H as [|? ? Hx Hl].
  destruct l as [|y l].
  - simpl. now apply split_slash_plain.
  - change (String.concat "/" (x :: y :: l))
      with (x ++ String "/" (String.concat "/" (y :: l)))%string.
    rewrite split_slash_app, (split_slash_plain x Hx), IH; [reflexivity| discriminate |assumption].
Qed.

Lemma valid_name_inv (c : string) :
  valid_name c = true ->
  c <> "" /\ c <> "." /\ c <> ".." /\ no_slash c.
Proof.
  unfold valid_name, no_slash. intros H.
  repeat (apply andb_true_iff in H as [H ?]).
  repeat match goal with
         | K : negb _ = true |- _ => apply negb_true_iff in K
         end.
  repeat split; try (apply String.eqb_neq; assumption); assumption.
Qed.

Lemma valid_names_no_slash (l : list string) : valid_names l -> Forall no_slash l.
Proof.
  apply Forall_impl. intros c H. now apply valid_name_inv in H.
Qed.

Lemma valid_names_kept (l : list string) : valid_names l -> filter kept l = l.
Proof.
  induction 1 as [|c l Hc _ IH]; simpl; [reflexivity|].
  apply valid_name_inv in Hc as (H1 & H2 & _).
  assert (kept c = true) as ->
    by (unfold kept; apply String.eqb_neq in H1, H2; now rewrite H1, H2).
  now rewrite IH.
Qed.

Lemma valid_names_app (l1 l2 : list string) :
  valid_names (l1 ++ l2) <-> valid_names l1 /\ valid_names l2.
Proof. apply Forall_app. Qed.

Lemma components_concat (l : list string) :
  l <> [] -> valid_names l -> components (String.concat "/" l) = l.
Proof.
  intros Hne Hv. unfold components.
  rewrite split_concat by auto using valid_names_no_slash.
  now apply valid_names_kept.
Qed.

Lemma concat_head (x : string) (l : list string) :
  exists s, String.concat "/" (x :: l) = (x ++ s)%string.
Proof.
  destruct l as [|y l].
  - exists ""%string. simpl. clear. induction x; simpl; congruence.
  - eexists. reflexivity.
Qed.

Lemma splitroot_concat (l : list string) :
  l <> [] -> valid_names l -> splitroot (String.concat "/" l) = ""%string.
Proof.
  destruct l as [|x l]; [congruence|].
  intros _ Hv. inversion_clear Hv as [|? ? Hx _].
  apply valid_name_inv in Hx as (Hne & _ & _ & Hs).
  destruct (concat_head x l) as [s ->].
  destruct x as [|c x]; [congruence|].
  unfold no_slash in Hs. simpl in Hs. apply orb_false_elim in Hs as [Hc _].
  simpl. now rewrite Hc.
Qed.

(** On the names a file system holds, the archive name is the relative
    path joined by slashes. *)
Lemma arcname_valid (rel : list string) :
  rel <> [] -> valid_names rel ->
  pure_str (PurePosixPath (as_posix rel)) = String.concat "/" rel.
Proof.
  intros Hne Hv.
  unfold pure_str, PurePosixPath, as_posix; simpl.
  destruct rel as [|x rel]; [congruence|].
  rewrite splitroot_concat, components_concat by (assumption || discriminate).
  reflexivity.
Qed.

Lemma concat_inj (r r' : list string) :
  r <> [] -> r' <> [] -> valid_names r -> valid_names r' ->
  String.concat "/" r = String.concat "/" r' -> r = r'.
Proof.
  intros H1 H2 V1 V2 E.
  rewrite <- (split_concat r), <- (split_concat r'), E
    by auto using valid_names_no_slash.
  reflexivity.
Qed.

Lemma split_concat_slash (r : list string) (y : string) :
  r <> [] -> valid_names r ->
  split_slash (String.concat "/" r ++ String "/" y)%string = r ++ split_slash y.
Proof.
  intros Hne Hv.
  rewrite split_slash_app, split_concat by auto using valid_names_no_slash.
  reflexivity.
Qed.

Lemma valid_names_not_empty_last (r r' : list string) :
  valid_names r -> r <> r' ++ [""%string].
Proof.
  intros Hv ->. apply valid_names_app in Hv as [_ Hv].
  inversion_clear Hv as [|? ? H _]. discriminate.
Qed.

Lemma concat_neq_marker (r r' : list string) :
  r <> [] -> r' <> [] -> valid_names r -> valid_names r' ->
  String.concat "/" r <> (String.concat "/" r' ++ "/")%string.
Proof.
  intros H1 H2 V1 V2 E.
  apply (f_equal split_slash) in E.
  rewrite (split_concat_slash r' "" H2 V2), split_concat in E
    by auto using valid_names_no_slash.
  simpl in E. now apply valid_names_not_empty_last in E.
Qed.

Lemma marker_inj (r r' : list string) :
  r <> [] -> r' <> [] -> valid_names r -> valid_names r' ->
  (String.concat "/" r ++ "/")%string = (String.concat "/" r' ++ "/")%string -> r = r'.
Proof.
  intros H1 H2 V1 V2 E.
  apply (f_equal split_slash) in E.
  rewrite (split_concat_slash r "" H1 V1), (split_concat_slash r' "" H2 V2) in E.
  now apply app_inv_tail in E.
Qed.

Lemma prefix_app (a s : string) :
  String.prefix a s = true <-> exists y, s = (a ++ y)%string.
Proof.
  revert s. induction a as [|c a IH]; intros s; simpl.
  - split; [intros _; now exists s | destruct s; reflexivity].
  - destruct s as [|d s]; simpl.
    + split; [discriminate | intros [y Hy]; discriminate].
    + destruct (ascii_dec c d) as [->|N].
      * rewrite IH. split; intros [y Hy]; exists y; congruence.
      * split; [discriminate | intros [y Hy]; congruence].
Qed.

Lemma string_app_assoc (a b c : string) : ((a ++ b) ++ c = a ++ (b ++ c))%string.
Proof. induction a as [|x a IH]; simpl; congruence. Qed.

(* ------------------------------------------------------------------ *)
(** ** Paths *)

Lemma relative_to_app (d r : Path) : relative_to (d ++ r) d = Some r.
Proof.
  induction d as [|c d IH]; simpl; [now destruct r|].
  now rewrite String.eqb_refl.
Qed.

Lemma name_app (d r : Path) : r <> [] -> name (d ++ r) = name r.
Proof.
  unfold name. intros Hne.
  induction d as [|c d IH]; simpl; [reflexivity|].
  destruct (d ++ r) eqn:E; [|assumption].
  apply app_eq_nil in E as [_ ->]. congruence.
Qed.

Lemma has_cache_part_app (p q : Path) :
  has_cache_part p = true -> has_cache_part (p ++ q) = true.
Proof.
  unfold has_cache_part, parts. simpl.
  rewrite existsb_app. intros ->. reflexivity.
Qed.

Lemma should_skip_iff (p : Path) :
  should_skip p = true <-> In (name p) denylist \/ In cache_dir (parts p).
Proof.
  unfold should_skip, in_denylist, has_cache_part.
  destruct (existsb (String.eqb (name p)) denylist) eqn:E1.
  - apply existsb_exists in E1 as (x & Hx & Ex). apply String.eqb_eq in Ex.
    subst x. tauto.
  - destruct (existsb (String.eqb cache_dir) (parts p)) eqn:E2.
    + apply existsb_exists in E2 as (x & Hx & Ex). apply String.eqb_eq in Ex.
      subst x. tauto.
    + split; [discriminate|]. intros [H|H]; exfalso.
      * assert (existsb (String.eqb (name p)) denylist = true); [|congruence].
        apply existsb_exists. exists (name p). split; [assumption|apply String.eqb_refl].
      * assert (existsb (String.eqb cache_dir) (parts p) = true); [|congruence].
        apply existsb_exists. exists cache_dir. split; [assumption|apply String.eqb_refl].
Qed.

Lemma should_skip_cache (p : Path) : has_cache_part p = true -> should_skip p = true.
Proof.
  unfold should_skip. intros ->. now destruct (in_denylist (name p)).
Qed.

(* ------------------------------------------------------------------ *)
(** ** The tree *)

Lemma node_induction (P : node -> Prop) :
  (forall c, P (File c)) -> P Special ->
  (forall es, Forall (fun e => P (snd e)) es -> P (Dir es)) ->
  forall n, P n.
Proof.
  intros HF HS HD.
  fix IH 1. intros [c|es|]; [apply HF| |apply HS].
  apply HD.
  induction es as [|[k m] es IHes]; constructor; [apply IH | exact IHes].
Qed.

Lemma assoc_In (k : string) (es : list (string * node)) (m : node) :
  assoc k es = Some m -> In (k, m) es.
Proof.
  induction es as [|[k' m'] es IH]; simpl; [discriminate|].
  destruct (String.eqb_spec k k') as [->|N].
  - intros [= ->]. now left.
  - intros H. right. auto.
Qed.

Lemma distinct_cons (x : string) (l : list string) :
  distinct (x :: l) = true <-> ~ In x l /\ distinct l = true.
Proof.
  simpl. rewrite andb_true_iff, negb_true_iff. split; intros [H1 H2]; split; auto.
  - intros Hin. assert (existsb (String.eqb x) l = true); [|congruence].
    apply existsb_exists. exists x. split; [assumption|apply String.eqb_refl].
  - destruct (existsb (String.eqb x) l) eqn:E; [|reflexivity].
    apply existsb_exists in E as (y & Hy & Exy). apply String.eqb_eq in Exy.
    subst y. contradiction.
Qed.

Lemma In_assoc (k : string) (es : list (string * node)) (m : node) :
  distinct (map fst es) = true -> In (k, m) es -> assoc k es = Some m.
Proof.
  induction es as [|[k' m'] es IH]; simpl map; [contradiction|].
  intros Hd. apply distinct_cons in Hd as [Hni Hd].
  intros [[= -> ->]|Hin]; simpl.
  - now rewrite String.eqb_refl.
  - destruct (String.eqb_spec k k') as [->|N]; [|auto].
    exfalso. apply Hni. change k' with (fst (k', m)). now apply in_map.
Qed.

Lemma wf_Dir (es : list (string * node)) :
  wf_node (Dir es) = true ->
  valid_names (map fst es) /\ distinct (map fst es) = true
  /\ forall k m, In (k, m) es -> wf_node m = true.
Proof.
  simpl. rewrite !andb_true_iff, !forallb_forall. intros [[Hv Hd] Hw].
  repeat split; [now apply Forall_forall | assumption |].
  intros k m Hin. exact (Hw _ Hin).
Qed.

Lemma wf_lookup (p : list string) (n m : node) :
  wf_node n = true -> lookup n p = Some m ->
  wf_node m = true /\ valid_names p.
Proof.
  revert n. induction p as [|c p IH]; simpl; intros n Hw.
  - intros [= ->]. split; [assumption|constructor].
  - destruct n as [|es|]; try discriminate.
    destruct (assoc c es) as [m'|] eqn:E; [|discriminate].
    apply assoc_In in E. intros Hl.
    apply wf_Dir in Hw as (Hv & _ & Hw).
    destruct (IH _ (Hw _ _ E) Hl) as [Hm Hp].
    split; [assumption|]. constructor; [|assumption].
    unfold valid_names in Hv. rewrite Forall_forall in Hv. apply Hv.
    change c with (fst (c, m')). now apply in_map.
Qed.

Lemma lookup_app (n : node) (p q : list string) :
  lookup n (p ++ q) =
  match lookup n p with Some m => lookup m q | None => None end.
Proof.
  revert n. induction p as [|c p IH]; simpl; intros n; [reflexivity|].
  destruct n as [|es|]; try reflexivity.
  destruct (assoc c es); [apply IH | reflexivity].
Qed.

Lemma descendants_Dir (es : list (string * node)) (r : list string) :
  In r (descendants (Dir es)) <->
  exists k m, In (k, m) es /\ (r = [k] \/ exists r', r = k :: r' /\ In r' (descendants m)).
Proof.
  simpl. rewrite in_flat_map. split.
  - intros ([k m] & Hin & [<-|H]); exists k, m; split; auto.
    apply in_map_iff in H as (r' & <- & Hr'). right. eauto.
  - intros (k & m & Hin & H). exists (k, m). split; [assumption|].
    destruct H as [->|(r' & -> & Hr')]; [now left|right].
    now apply in_map.
Qed.

Lemma descendants_lookup (r : list string) (n x : node) :
  r <> [] -> lookup n r = Some x -> In r (descendants n).
Proof.
  revert n. induction r as [|k r IH]; [congruence|].
  intros n _. simpl.
  destruct n as [|es|]; try discriminate.
  destruct (assoc k es) as [m|] eqn:E; [|discriminate].
  intros Hl. apply descendants_Dir. exists k, m.
  split; [now apply assoc_In|].
  destruct r as [|k' r]; [now left|right].
  exists (k' :: r). split; [reflexivity|]. apply IH; [discriminate|assumption].
Qed.

Lemma descendants_inv (r : list string) (n : node) :
  wf_node n = true -> In r (descendants n) ->
  r <> [] /\ exists x, lookup n r = Some x.
Proof.
  revert n. induction r as [|k r IH]; intros n Hw Hin.
  - destruct n as [|es|]; try contradiction.
    apply descendants_Dir in Hin as (k & m & _ & [H|(r' & H & _)]); discriminate.
  - split; [discriminate|].
    destruct n as [|es|]; try contradiction.
    apply descendants_Dir in Hin as (k0 & m & Hin & H).
    apply wf_Dir in Hw as (_ & Hd & Hw).
    assert (k0 = k) as -> by (destruct H as [H|(r' & H & _)]; congruence).
    simpl. rewrite (In_assoc _ _ _ Hd Hin).
    destruct H as [[= ->]|(r' & [= <-] & Hr')]; [now exists m|].
    exact (proj2 (IH _ (Hw _ _ Hin) Hr')).
Qed.

Lemma NoDup_map_cons (k : string) (l : list (list string)) :
  NoDup l -> NoDup (map (cons k) l).
Proof.
  induction 1 as [|x l Hx _ IH]; simpl; constructor; [|assumption].
  intros Hin. apply in_map_iff in Hin as (y & [= ->] & Hy). contradiction.
Qed.

Lemma descendants_nonempty (n : node) : ~ In [] (descendants n).
Proof.
  destruct n as [|es|]; try (intros []).
  intros H. apply descendants_Dir in H as (k & m & _ & [H|(r' & H & _)]); discriminate.
Qed.

Lemma descendants_head (es : list (string * node)) (x : list string) :
  In x (descendants (Dir es)) -> exists k r, x = k :: r /\ In k (map fst es).
Proof.
  intros H. apply descendants_Dir in H as (k & m & Hin & H).
  assert (In k (map fst es)) by (change k with (fst (k, m)); now apply in_map).
  destruct H as [->|(r' & -> & _)]; eauto.
Qed.

Lemma descendants_NoDup (n : node) : wf_node n = true -> NoDup (descendants n).
Proof.
  induction n as [c| |es IH] using node_induction; intros Hw; try constructor.
  apply wf_Dir in Hw as (_ & Hd & Hw).
  induction es as [|[k m] es IHes]; [constructor|].
  inversion_clear IH as [|? ? IHm IH'].
  simpl map in Hd. apply distinct_cons in Hd as [Hni Hd].
  assert (NoDup (descendants m)) as Hm by (apply IHm, (Hw k); now left).
  assert (forall x, In x (descendants (Dir es)) -> exists r, x = r /\ hd_error r <> Some k)
    as Hother.
  { intros x Hx. apply descendants_head in Hx as (k' & r & -> & Hk').
    eexists; split; [reflexivity|]. simpl. intros [= ->]. contradiction. }
  change (descendants (Dir ((k, m) :: es)))
    with (([k] :: map (cons k) (descendants m)) ++ descendants (Dir es)).
  apply NoDup_app.
  - constructor; [|now apply NoDup_map_cons].
    intros Hin. apply in_map_iff in Hin as (y & [= ->] & Hy).
    now apply descendants_nonempty in Hy.
  - apply IHes; [assumption|assumption|].
    intros k' m' Hin. apply (Hw k'). now right.
  - intros x Hx Hx'. apply Hother in Hx' as (r & -> & Hr). apply Hr.
    destruct Hx as [<-|Hx]; [reflexivity|].
    now apply in_map_iff in Hx as (y & <- & _).
Qed.

Lemma rglob_iff (fs : node) (d p : Path) :
  wf_node fs = true ->
  In p (rglob fs d) <->
  exists r, p = d ++ r /\ r <> [] /\ exists x, lookup fs (d ++ r) = Some x.
Proof.
  intros Hw. unfold rglob.
  destruct (lookup fs d) as [n|] eqn:E.
  - rewrite in_map_iff. split.
    + intros (r & <- & Hr). exists r.
      apply descendants_inv in Hr as [Hne Hx]; [|exact (proj1 (wf_lookup _ _ _ Hw E))].
      rewrite lookup_app, E. auto.
    + intros (r & -> & Hne & x & Hx). exists r. split; [reflexivity|].
      rewrite lookup_app, E in Hx. eapply descendants_lookup; eassumption.
  - split; [contradiction|].
    intros (r & _ & _ & x & Hx). rewrite lookup_app, E in Hx. discriminate.
Qed.

Lemma rglob_NoDup (fs : node) (d : Path) :
  wf_node fs = true -> NoDup (rglob fs d).
Proof.
  intros Hw. unfold rglob.
  destruct (lookup fs d) as [n|] eqn:E; [|constructor].
  apply wf_lookup in E as [Hn _]; [|assumption].
  pose proof (descendants_NoDup n Hn) as H.
  induction H as [|x l Hx _ IH]; simpl; constructor; [|assumption].
  intros Hin. apply in_map_iff in Hin as (y & Ey & Hy).
  apply app_inv_head in Ey. congruence.
Qed.

Lemma rglob_under (fs : node) (d : Path) :
  Forall (fun p => exists r, p = d ++ r) (rglob fs d).
Proof.
  unfold rglob. destruct (lookup fs d); [|constructor].
  apply Forall_forall. intros p Hp.
  apply in_map_iff in Hp as (r & <- & _). now exists r.
Qed.

(* ------------------------------------------------------------------ *)
(** ** The loop *)

Lemma same_path_iff (p q : Path) : same_path p q = true <-> p = q.
Proof.
  unfold same_path. destruct (list_eq_dec string_dec p q); split; congruence.
Qed.

Lemma same_path_neq (p q : Path) : p <> q -> same_path p q = false.
Proof.
  intros H. destruct (same_path p q) eqn:E; [|reflexivity].
  apply same_path_iff in E. contradiction.
Qed.

Lemma emit_own_irrelevant (handle : Path) (own own' : bytes) (fs : node)
      (docs_dir p : Path) :
  p <> handle -> emit handle own fs docs_dir p = emit handle own' fs docs_dir p.
Proof. intros H. unfold emit. now rewrite (same_path_neq _ _ H). Qed.

(** One turn of the loop either raises what [fault_at] says, leaving the
    state as it was, or appends what [emit] says and counts it. *)
Lemma visit_spec (io : IO) (handle : Path) (fs : node) (docs_dir : Path)
      (st : Loop) (r : list string) :
  match fault_at io fs docs_dir (docs_dir ++ r) with
  | Some e => visit io handle fs docs_dir st (docs_dir ++ r) = inl e
  | None =>
      exists st',
        visit io handle fs docs_dir st (docs_dir ++ r) = inr st'
        /\ z st' = z st ++ emit handle (own_bytes io (z st)) fs docs_dir (docs_dir ++ r)
        /\ files_added st'
           = files_added st + (if counted_file fs (docs_dir ++ r) then 1 else 0)
        /\ dirs_added st'
           = dirs_added st + (if counted_dir fs (docs_dir ++ r) then 1 else 0)
  end.
Proof.
  unfold fault_at, visit, emit, counted_file, counted_dir, is_empty_dir,
    os_is_dir, os_is_file, os_iterdir, zip_writestr, zip_write,
    is_dir, iterdir, is_file, read_bytes, writestr, write.
  destruct (should_skip (docs_dir ++ r)); simpl.
  { exists st. rewrite app_nil_r. repeat split; lia. }
  rewrite relative_to_app. cbv zeta.
  destruct (stat_fault io (docs_dir ++ r)); [reflexivity|].
  destruct (lookup fs (docs_dir ++ r)) as [[c|[|e es]|]|]; simpl.
  - destruct (read_fault io (docs_dir ++ r)); [reflexivity|].
    destruct (name_fault io _); [reflexivity|].
    eexists. split; [reflexivity|]. simpl. repeat split; lia.
  - destruct (iterdir_fault io (docs_dir ++ r)); [reflexivity|]. simpl.
    destruct (name_fault io _); [reflexivity|].
    eexists. split; [reflexivity|]. simpl. repeat split; lia.
  - destruct (iterdir_fault io (docs_dir ++ r)); [reflexivity|]. simpl.
    exists st. rewrite app_nil_r. repeat split; lia.
  - exists st. rewrite app_nil_r. repeat split; lia.
  - exists st. rewrite app_nil_r. repeat split; lia.
Qed.

Lemma Forall_perm {A : Type} (P : A -> Prop) (l l' : list A) :
  Permutation l l' -> Forall P l -> Forall P l'.
Proof.
  intros HP. rewrite !Forall_forall. intros H x Hx.
  apply H. now apply (Permutation_in _ (Permutation_sym HP)).
Qed.

Lemma flat_map_agree {A B : Type} (f g : A -> list B) (l : list A) :
  (forall x, In x l -> f x = g x) -> flat_map f l = flat_map g l.
Proof.
  induction l as [|x l IH]; simpl; intros H; [reflexivity|].
  rewrite (H x) by now left. f_equal. apply IH. intros y Hy. apply H. now right.
Qed.

(** The loop over a list without repetition: it goes through a first part
    of the list, where nothing is refused, appends what those entries emit,
    and either reaches the end or stops at the first refusal. *)
Lemma for_each_walk (io : IO) (handle : Path) (fs : node) (docs_dir : Path)
      (l : list Path) (st : Loop) :
  NoDup l ->
  Forall (fun p => exists r, p = docs_dir ++ r) l ->
  exists own l1 l2,
    l = l1 ++ l2
    /\ z (snd (for_each (visit io handle fs docs_dir) st l))
       = z st ++ flat_map (emit handle own fs docs_dir) l1
    /\ (forall p, In p l1 -> fault_at io fs docs_dir p = None)
    /\ match fst (for_each (visit io handle fs docs_dir) st l) with
       | None => l2 = []
       | Some e => exists p l2', l2 = p :: l2' /\ fault_at io fs docs_dir p = Some e
       end.
Proof.
  intros Hnd H. revert st.
  induction H as [|p l [r ->] _ IH]; intros st; simpl.
  - exists ""%string, [], []. simpl. rewrite app_nil_r. repeat split. intros p [].
  - apply NoDup_cons_iff in Hnd as [Hp Hnd].
    pose proof (visit_spec io handle fs docs_dir st r) as V.
    destruct (fault_at io fs docs_dir (docs_dir ++ r)) as [e|] eqn:F.
    + rewrite V. simpl. exists ""%string, [], ((docs_dir ++ r) :: l). simpl.
      rewrite app_nil_r. repeat split; [intros p []|eauto].
    + destruct V as (st1 & -> & Z1 & _).
      destruct (IH Hnd st1) as (own & l1 & l2 & -> & Z & Hl1 & Hend).
      destruct (list_eq_dec string_dec (docs_dir ++ r) handle) as [E|N].
      * exists (own_bytes io (z st)), ((docs_dir ++ r) :: l1), l2.
        split; [reflexivity|]. split; [|split; [|exact Hend]].
        -- rewrite Z, Z1, <- app_assoc. simpl. do 2 f_equal.
           apply flat_map_agree. intros q Hq. apply emit_own_irrelevant.
           intros ->. apply Hp. rewrite E. apply in_or_app. now left.
        -- intros q [<-|Hq]; auto.
      * exists own, ((docs_dir ++ r) :: l1), l2.
        split; [reflexivity|]. split; [|split; [|exact Hend]].
        -- rewrite Z, Z1, <- app_assoc. simpl. do 2 f_equal.
           now apply emit_own_irrelevant.
        -- intros q [<-|Hq]; auto.
Qed.


(** When the loop reaches the end, the counters have counted every file
    and every empty directory that was not skipped. *)
Lemma for_each_counts (io : IO) (handle : Path) (fs : node) (docs_dir : Path)
      (l : list Path) (st : Loop) :
  Forall (fun p => exists r, p = docs_dir ++ r) l ->
  fst (for_each (visit io handle fs docs_dir) st l) = None ->
  files_added (snd (for_each (visit io handle fs docs_dir) st l))
  = files_added st + List.length (filter (counted_file fs) l)
  /\ dirs_added (snd (for_each (visit io handle fs docs_dir) st l))
     = dirs_added st + List.length (filter (counted_dir fs) l).
Proof.
  intros H. revert st.
  induction H as [|p l [r ->] _ IH]; intros st; simpl.
  - intros _. split; lia.
  - pose proof (visit_spec io handle fs docs_dir st r) as V.
    destruct (fault_at io fs docs_dir (docs_dir ++ r)) as [e|].
    + rewrite V. discriminate.
    + destruct V as (st1 & -> & _ & F1 & D1). intros Hok.
      destruct (IH st1 Hok) as [F D]. rewrite F, D, F1, D1.
      destruct (counted_file fs (docs_dir ++ r)), (counted_dir fs (docs_dir ++ r));
        simpl; split; lia.
Qed.

Lemma sorted_NoDup (l : list Path) : NoDup l -> NoDup (sorted l).
Proof. apply Permutation_NoDup. symmetry. apply sorted_perm. Qed.

Lemma In_sorted (p : Path) (l : list Path) : In p (sorted l) <-> In p l.
Proof.
  split; apply Permutation_in; [|symmetry]; apply sorted_perm.
Qed.

Lemma sorted_rglob_under (fs : node) (docs_dir : Path) :
  Forall (fun p => exists r, p = docs_dir ++ r) (sorted (rglob fs docs_dir)).
Proof.
  eapply Forall_perm; [|apply rglob_under]. symmetry. apply sorted_perm.
Qed.

(** The archive of a walk: the entries of a first part of the sorted
    listing; all of it when the walk raises nothing. *)
Lemma archive_walk (io : IO) (handle : Path) (fs : node) (docs_dir : Path) :
  wf_node fs = true ->
  exists own l1 l2,
    sorted (rglob fs docs_dir) = l1 ++ l2
    /\ archive_entries io handle fs docs_dir = flat_map (emit handle own fs docs_dir) l1
    /\ (forall p, In p l1 -> fault_at io fs docs_dir p = None)
    /\ match fst (archive io handle fs docs_dir) with
       | None => l2 = []
       | Some e => exists p l2', l2 = p :: l2' /\ fault_at io fs docs_dir p = Some e
       end.
Proof.
  intros Hw. unfold archive_entries, archive, archive_listing.
  apply (for_each_walk io handle fs docs_dir (sorted (rglob fs docs_dir)) Loop0).
  - apply sorted_NoDup, rglob_NoDup, Hw.
  - apply sorted_rglob_under.
Qed.

Lemma archive_complete (io : IO) (handle : Path) (fs : node) (docs_dir : Path) :
  wf_node fs = true ->
  fst (archive io handle fs docs_dir) = None ->
  exists own,
    archive_entries io handle fs docs_dir
    = flat_map (emit handle own fs docs_dir) (sorted (rglob fs docs_dir)).
Proof.
  intros Hw Hok.
  destruct (archive_walk io handle fs docs_dir Hw) as (own & l1 & l2 & E & Z & _ & Hend).
  rewrite Hok in Hend. subst l2. rewrite app_nil_r in E.
  exists own. now rewrite E.
Qed.


(** Whatever is in the archive was emitted by an entry of the listing. *)
Lemma In_archive_entries (io : IO) (handle : Path) (fs : node) (docs_dir : Path)
      (e : ZipEntry) :
  wf_node fs = true ->
  In e (archive_entries io handle fs docs_dir) ->
  exists own p, In p (rglob fs docs_dir) /\ In e (emit handle own fs docs_dir p).
Proof.
  intros Hw He.
  destruct (archive_walk io handle fs docs_dir Hw) as (own & l1 & l2 & E & Z & _).
  rewrite Z in He. apply in_flat_map in He as (p & Hp & He).
  exists own, p. split; [|assumption].
  apply In_sorted. rewrite E. apply in_or_app. now left.
Qed.

(** What an emitted entry is, on a tree the operating system can present. *)
Lemma emit_inv (handle : Path) (own : bytes) (fs : node) (docs_dir : Path)
      (r : list string) (e : ZipEntry) :
  wf_node fs = true -> r <> [] ->
  In e (emit handle own fs docs_dir (docs_dir ++ r)) ->
  should_skip (docs_dir ++ r) = false /\ valid_names r
  /\ ((exists c, lookup fs (docs_dir ++ r) = Some (File c)
                 /\ e = {| filename := arcname r;
                           data := if same_path (docs_dir ++ r) handle then own else c |})
      \/ (lookup fs (docs_dir ++ r) = Some (Dir [])
          /\ e = {| filename := (arcname r ++ "/")%string; data := "" |})).
Proof.
  intros Hw Hne. unfold emit.
  destruct (should_skip (docs_dir ++ r)); [contradiction|].
  rewrite relative_to_app.
  destruct (lookup fs (docs_dir ++ r)) as [x|] eqn:E; [|contradiction].
  apply wf_lookup in E as [_ Hv]; [|assumption].
  apply valid_names_app in Hv as [_ Hv].
  cbv zeta. rewrite (arcname_valid r Hne Hv). fold (arcname r).
  destruct x as [c|[|? ?]|]; try contradiction;
    intros [<-|[]]; (split; [reflexivity|]); (split; [assumption|]); eauto.
Qed.

Lemma emit_file (handle : Path) (own : bytes) (fs : node) (docs_dir : Path)
      (r : list string) (c : bytes) :
  wf_node fs = true -> r <> [] ->
  lookup fs (docs_dir ++ r) = Some (File c) ->
  should_skip (docs_dir ++ r) = false ->
  emit handle own fs docs_dir (docs_dir ++ r)
  = [ {| filename := arcname r;
         data := if same_path (docs_dir ++ r) handle then own else c |} ].
Proof.
  intros Hw Hne E Hs. unfold emit. rewrite Hs, relative_to_app, E.
  apply wf_lookup in E as [_ Hv]; [|assumption].
  apply valid_names_app in Hv as [_ Hv].
  cbv zeta. now rewrite (arcname_valid r Hne Hv).
Qed.


(* ------------------------------------------------------------------ *)
(** ** Counting the entries of a given name *)

Lemma named_app (k : string) (l1 l2 : list ZipEntry) :
  named k (l1 ++ l2) = named k l1 ++ named k l2.
Proof. apply filter_app. Qed.

Lemma named_nil_iff (k : string) (l : list ZipEntry) :
  named k l = [] <-> forall e, In e l -> filename e <> k.
Proof.
  unfold named. induction l as [|x l IH]; simpl.
  - split; [intros _ e [] | reflexivity].
  - destruct (String.eqb_spec (filename x) k) as [E|N].
    + split; [discriminate|]. intros H. exfalso. apply (H x); auto.
    + rewrite IH. split.
      * intros H e [<-|He]; auto.
      * intros H e He. apply H. now right.
Qed.

Lemma named_flat_map_nil (k : string) (f : Path -> list ZipEntry) (l : list Path) :
  (forall q, In q l -> named k (f q) = []) -> named k (flat_map f l) = [].
Proof.
  induction l as [|q l IH]; simpl; intros H; [reflexivity|].
  rewrite named_app, (H q), IH; auto.
Qed.

Lemma named_flat_map_one (k : string) (f : Path -> list ZipEntry)
      (l : list Path) (p : Path) :
  NoDup l -> In p l ->
  (forall q, In q l -> q <> p -> named k (f q) = []) ->
  named k (flat_map f l) = named k (f p).
Proof.
  induction 1 as [|q l Hq Hnd IH]; simpl; [contradiction|].
  intros [->|Hp] Hothers; rewrite named_app.
  - rewrite named_flat_map_nil, app_nil_r; [reflexivity|].
    intros q Hin. apply Hothers; [now right|]. intros ->. contradiction.
  - rewrite (Hothers q), IH; auto. intros ->. contradiction.
Qed.

(* ------------------------------------------------------------------ *)
(** ** Writes *)

Lemma assoc_update_same (k : string) (m : node) (es : list (string * node)) :
  assoc k (update k m es) = Some m.
Proof.
  induction es as [|[k' m'] es IH]; simpl.
  - now rewrite String.eqb_refl.
  - destruct (String.eqb_spec k k') as [->|N]; simpl.
    + now rewrite String.eqb_refl.
    + apply String.eqb_neq in N. now rewrite N.
Qed.

Lemma assoc_update_other (k k' : string) (m : node) (es : list (string * node)) :
  k' <> k -> assoc k' (update k m es) = assoc k' es.
Proof.
  intros N. induction es as [|[k0 m0] es IH]; simpl.
  - apply String.eqb_neq in N. now rewrite N.
  - destruct (String.eqb_spec k k0) as [->|N0]; simpl.
    + apply String.eqb_neq in N. now rewrite N.
    + now rewrite IH.
Qed.

Lemma update_same (k : string) (m : node) (es : list (string * node)) :
  assoc k es = Some m -> update k m es = es.
Proof.
  induction es as [|[k' m'] es IH]; simpl; [discriminate|].
  destruct (String.eqb_spec k k') as [->|N].
  - now intros [= ->].
  - intros H. now rewrite IH.
Qed.

Lemma is_dir_cons (es : list (string * node)) (k : string) (q : list string) :
  is_dir (Dir es) (k :: q)
  = match assoc k es with Some m => is_dir m q | None => false end.
Proof. unfold is_dir. simpl. now destruct (assoc k es). Qed.

Lemma is_dir_leaf (n : node) (q : list string) :
  (forall es, n <> Dir es) -> is_dir n q = false.
Proof.
  intros H. unfold is_dir.
  destruct q; simpl; destruct n; try reflexivity; now destruct (H entries).
Qed.

(** Writing a file neither makes nor removes a directory. *)
Lemma write_at_is_dir (p : list string) (n n' : node) (c : bytes) (q : list string) :
  write_at n p c = Some n' -> is_dir n' q = is_dir n q.
Proof.
  revert n n' q. induction p as [|k p IH]; intros n n' q; simpl.
  - destruct n; try discriminate. intros [= <-].
    rewrite !is_dir_leaf; [reflexivity|discriminate|discriminate].
  - destruct n as [|es|]; try discriminate.
    destruct (assoc k es) as [m|] eqn:E.
    + destruct (write_at m p c) as [m'|] eqn:W; [|discriminate].
      intros [= <-]. destruct q as [|k2 q]; [reflexivity|].
      rewrite !is_dir_cons.
      destruct (String.eqb_spec k2 k) as [->|N].
      * rewrite assoc_update_same, E. eauto.
      * now rewrite assoc_update_other.
    + destruct p; [|discriminate]. intros [= <-].
      destruct q as [|k2 q]; [reflexivity|].
      rewrite !is_dir_cons.
      destruct (String.eqb_spec k2 k) as [->|N].
      * rewrite assoc_update_same, E. apply is_dir_leaf. discriminate.
      * now rewrite assoc_update_other.
Qed.

Lemma write_at_lookup (p : list string) (n n' : node) (c : bytes) :
  write_at n p c = Some n' -> lookup n' p = Some (File c).
Proof.
  revert n n'. induction p as [|k p IH]; intros n n'; simpl.
  - destruct n; try discriminate. now intros [= <-].
  - destruct n as [|es|]; try discriminate.
    destruct (assoc k es) as [m|] eqn:E.
    + destruct (write_at m p c) as [m'|] eqn:W; [|discriminate].
      intros [= <-]. simpl. rewrite assoc_update_same. eauto.
    + destruct p; [|discriminate]. intros [= <-].
      simpl. now rewrite assoc_update_same.
Qed.

(** A regular file can always be written over. *)
Lemma write_at_over (p : list string) (n : node) (old c : bytes) :
  lookup n p = Some (File old) -> exists n', write_at n p c = Some n'.
Proof.
  revert n. induction p as [|k p IH]; intros n; simpl.
  - intros [= ->]. eauto.
  - destruct n as [|es|]; try discriminate.
    destruct (assoc k es) as [m|]; [|discriminate].
    intros H. destruct (IH _ H) as [m' ->]. eauto.
Qed.

Lemma mkdir_p_is_dir (p : list string) (n n' : node) :
  mkdir_p n p = Some n' -> is_dir n' p = true.
Proof.
  revert n n'. induction p as [|k p IH]; intros n n'.
  - destruct n; simpl; try discriminate. now intros [= <-].
  - destruct n as [|es|]; simpl; try discriminate.
    destruct (mkdir_p _ p) as [m'|] eqn:M; [|discriminate].
    intros [= <-]. rewrite is_dir_cons, assoc_update_same. eauto.
Qed.

(** [exist_ok]: on a directory that is there, nothing changes. *)
Lemma mkdir_p_exists (p : list string) (n : node) :
  is_dir n p = true -> mkdir_p n p = Some n.
Proof.
  revert n. induction p as [|k p IH]; intros n.
  - destruct n; simpl; try discriminate; unfold is_dir; simpl; congruence.
  - destruct n as [|es|]; try (unfold is_dir; simpl; discriminate).
    rewrite is_dir_cons. simpl.
    destruct (assoc k es) as [m|] eqn:E; [|discriminate].
    intros H. rewrite (IH _ H), update_same; auto.
Qed.

Lemma mkdir_p_keeps_dirs (p : list string) (n n' : node) (q : list string) :
  mkdir_p n p = Some n' -> is_dir n q = true -> is_dir n' q = true.
Proof.
  revert n n' q. induction p as [|k p IH]; intros n n' q.
  - destruct n; simpl; try discriminate. now intros [= <-].
  - destruct n as [|es|]; simpl; try discriminate.
    destruct (mkdir_p _ p) as [m'|] eqn:M; [|discriminate].
    intros [= <-]. destruct q as [|k2 q]; [reflexivity|].
    rewrite !is_dir_cons.
    destruct (String.eqb_spec k2 k) as [->|N].
    + rewrite assoc_update_same.
      destruct (assoc k es) as [m|]; [|discriminate]. eauto.
    + now rewrite assoc_update_other.
Qed.

Lemma namei_ext (fs fs' : node) (cs : list string) (cur : Path) :
  (forall q, is_dir fs' q = is_dir fs q) -> namei fs' cur cs = namei fs cur cs.
Proof.
  intros H. revert cur. induction cs as [|c cs IH]; intros cur; simpl; [reflexivity|].
  rewrite H. destruct (is_dir fs cur); [apply IH | reflexivity].
Qed.

Lemma is_dir_exists (fs : node) (p : Path) : is_dir fs p = true -> exists_ fs p = true.
Proof. unfold is_dir, exists_. now destruct (lookup fs p). Qed.

(* ------------------------------------------------------------------ *)
(** ** The walk inside the run *)

Lemma open_w_inv (fs1 fs2 : node) (p handle : Path) :
  open_w fs1 p = Some (handle, fs2) ->
  namei fs1 [] p = Some handle /\ write_at fs1 handle "" = Some fs2.
Proof.
  unfold open_w. destruct (namei fs1 [] p) as [loc|]; [|discriminate].
  destruct (write_at fs1 loc "") as [fs'|] eqn:W; [|discriminate].
  intros [= <- <-]. auto.
Qed.

(** Closing puts the bytes where the archive was opened, and neither
    opening nor closing makes or removes a directory. *)
Lemma close_w_stat (fs1 fs2 : node) (p handle : Path) (b : bytes) :
  open_w fs1 p = Some (handle, fs2) ->
  stat (close_w fs2 handle b) p = Some (File b)
  /\ forall q, is_dir (close_w fs2 handle b) q = is_dir fs1 q.
Proof.
  intros Ho. apply open_w_inv in Ho as [N W].
  destruct (write_at_over handle fs2 "" b (write_at_lookup _ _ _ _ W)) as [fs3 W3].
  unfold close_w. rewrite W3.
  assert (forall q, is_dir fs3 q = is_dir fs1 q) as Hdirs.
  { intros q. now rewrite (write_at_is_dir _ _ _ _ q W3), (write_at_is_dir _ _ _ _ q W). }
  split; [|exact Hdirs].
  unfold stat. rewrite (namei_ext fs1 fs3 _ _ Hdirs), N.
  exact (write_at_lookup _ _ _ _ W3).
Qed.

(** From the walk on, the run is the walk: status 0 and the report when it
    raises nothing, status 1 and the error when it raises; either way the
    archive is closed over the entries written. *)
Lemma run_of_walk (zip_bytes : list ZipEntry -> bytes) (io : IO)
      (args : Args) (env : Env) (fs : node)
      (repo_root handle : Path) (fs2 : node) :
  reaches_walk args env fs repo_root handle fs2 ->
  run zip_bytes io args env fs
  = let st := snd (archive io handle fs2 (docs_dir_of args env repo_root)) in
    let fs3 := close_w fs2 handle (zip_bytes (z st)) in
    match fst (archive io handle fs2 (docs_dir_of args env repo_root)) with
    | None =>
        {| exit_code := 0; stdout := report (zip_path_str args env repo_root) st;
           stderr := []; fs_after := fs3 |}
    | Some e =>
        {| exit_code := 1; stdout := [];
           stderr := [("ERROR: " ++ exn_str e)%string]; fs_after := fs3 |}
    end.
Proof.
  intros (fs1 & Hr & Hd & Hm & Ho). unfold run, main. rewrite Hr. cbv zeta.
  rewrite Hd, (is_dir_exists _ _ Hd), Hm, Ho. simpl negb. simpl orb. cbv iota.
  destruct (archive io handle fs2 (docs_dir_of args env repo_root)) as [[e|] st];
    reflexivity.
Qed.

Lemma run_ok_walk (zip_bytes : list ZipEntry -> bytes) (io : IO)
      (args : Args) (env : Env) (fs : node)
      (repo_root handle : Path) (fs2 : node) :
  reaches_walk args env fs repo_root handle fs2 ->
  exit_code (run zip_bytes io args env fs) = 0
  <-> fst (archive io handle fs2 (docs_dir_of args env repo_root)) = None.
Proof.
  intros H. rewrite (run_of_walk _ _ _ _ _ _ _ _ H). cbv zeta.
  destruct (fst (archive io handle fs2 _)); simpl; split; congruence.
Qed.

(** Whether the walk raised or not, the archive is left at its path,
    closed over the entries written. *)
Lemma archive_written (zip_bytes : list ZipEntry -> bytes) (io : IO)
      (args : Args) (env : Env) (fs : node)
      (repo_root handle : Path) (fs2 : node) :
  reaches_walk args env fs repo_root handle fs2 ->
  stat (fs_after (run zip_bytes io args env fs)) (zip_path_of args env repo_root)
  = Some (File (zip_bytes
                  (archive_entries io handle fs2 (docs_dir_of args env repo_root)))).
Proof.
  intros H. rewrite (run_of_walk _ _ _ _ _ _ _ _ H). cbv zeta.
  destruct H as (fs1 & _ & _ & _ & Ho).
  unfold archive_entries.
  destruct (fst (archive io handle fs2 _)); simpl; exact (proj1 (close_w_stat _ _ _ _ _ Ho)).
Qed.


(* ------------------------------------------------------------------ *)
(** ** Which entry carries which name *)

Lemma arcname_clash (r r' : list string) (k : string) :
  r <> [] -> r' <> [] -> valid_names r -> valid_names r' ->
  (k = arcname r \/ k = (arcname r ++ "/")%string) ->
  (k = arcname r' \/ k = (arcname r' ++ "/")%string) ->
  r = r'.
Proof.
  unfold arcname. intros H1 H2 V1 V2 [-> | ->] [E|E].
  - now apply concat_inj.
  - now apply concat_neq_marker in E.
  - symmetry in E. now apply concat_neq_marker in E.
  - now apply marker_inj.
Qed.

(** No other entry of the listing emits under the name of the path at
    [rel]. *)
Lemma named_other (handle : Path) (own : bytes) (fs : node) (docs_dir : Path)
      (rel : list string) (x : node) (k : string) (q : Path) :
  wf_node fs = true -> rel <> [] ->
  lookup fs (docs_dir ++ rel) = Some x ->
  k = arcname rel \/ k = (arcname rel ++ "/")%string ->
  In q (rglob fs docs_dir) -> q <> docs_dir ++ rel ->
  named k (emit handle own fs docs_dir q) = [].
Proof.
  intros Hw Hne Hx Hk Hq Hqp.
  apply rglob_iff in Hq as (r' & -> & Hne' & _); [|assumption].
  apply named_nil_iff. intros e He <-.
  apply emit_inv in He as (_ & Hv' & He); [|assumption|assumption].
  apply Hqp. f_equal.
  apply wf_lookup in Hx as [_ Hv]; [|assumption].
  apply valid_names_app in Hv as [_ Hv].
  apply (arcname_clash r' rel (filename e)); auto.
  destruct He as [(c & _ & ->)|[_ ->]]; simpl; auto.
Qed.


(** When the walk raises nothing, the entries of a given name are those its
    own path emits. *)
Lemma named_present (io : IO) (handle : Path) (fs : node) (docs_dir : Path)
      (rel : list string) (x : node) (k : string) :
  wf_node fs = true ->
  fst (archive io handle fs docs_dir) = None ->
  rel <> [] ->
  lookup fs (docs_dir ++ rel) = Some x ->
  k = arcname rel \/ k = (arcname rel ++ "/")%string ->
  exists own,
    named k (archive_entries io handle fs docs_dir)
    = named k (emit handle own fs docs_dir (docs_dir ++ rel)).
Proof.
  intros Hw Hok Hne Hx Hk.
  destruct (archive_complete io handle fs docs_dir Hw Hok) as [own ->].
  exists own. apply named_flat_map_one.
  - apply sorted_NoDup, rglob_NoDup, Hw.
  - apply In_sorted, rglob_iff; eauto.
  - intros q Hq Hqp. apply (named_other handle own fs docs_dir rel x k q); auto.
    now apply In_sorted.
Qed.

Lemma named_self (e : ZipEntry) : named (filename e) [e] = [e].
Proof. unfold named. simpl. now rewrite String.eqb_refl. Qed.





Lemma example_reaches_walk :
  reaches_walk no_args example_env example_fs ["repo"] example_zip
    (match open_w example_fs example_zip with
     | Some (_, fs2) => fs2
     | None => example_fs
     end).
Proof. exists example_fs. repeat split. Qed.





Lemma components_marker (rel : list string) :
  rel <> [] -> valid_names rel -> components (arcname rel ++ "/") = rel.
Proof.
  intros Hne Hv. unfold components, arcname.
  rewrite (split_concat_slash rel "" Hne Hv), filter_app, valid_names_kept by assumption.
  apply app_nil_r.
Qed.

Lemma should_skip_false_inv (p : Path) :
  should_skip p = false ->
  name p <> ".DS_Store"%string /\ name p <> "Thumbs.db"%string
  /\ ~ In cache_dir (parts p).
Proof.
  intros Hs.
  assert (~ (In (name p) denylist \/ In cache_dir (parts p))) as N
    by (rewrite <- should_skip_iff; congruence).
  unfold denylist in N. simpl in N.
  repeat split; intros H; apply N; auto.
Qed.

(** C3.  Every entry of the archive stands for an existing path below the
    source directory; the components read off the entry's name are that
    relative path; its last component is neither [.DS_Store] nor
    [Thumbs.db], and no component of the path, at any depth, is
    [__pycache__]. *)
Theorem no_denylisted_entry (io : IO) (handle : Path) (fs : node) (docs_dir : Path)
        (e : ZipEntry) :
  wf_node fs = true ->
  In e (archive_entries io handle fs docs_dir) ->
  exists rel,
    rel <> [] /\ lookup fs (docs_dir ++ rel) <> None
    /\ components (filename e) = rel
    /\ name rel <> ".DS_Store"%string /\ name rel <> "Thumbs.db"%string
    /\ ~ In cache_dir rel
    /\ ~ In cache_dir (parts (docs_dir ++ rel)).
Proof.
  intros Hw He.
  apply In_archive_entries in He as (own & p & Hp & He); [|assumption].
  apply rglob_iff in Hp as (rel & -> & Hne & x & Hx); [|assumption].
  apply emit_inv in He as (Hs & Hv & He); [|assumption|assumption].
  apply should_skip_false_inv in Hs as (H1 & H2 & H3).
  rewrite name_app in H1, H2 by assumption.
  exists rel. repeat split; try assumption.
  - congruence.
  - destruct He as [(c & _ & ->)|[_ ->]]; simpl.
    + now apply components_concat.
    + now apply components_marker.
  - intros Hin. apply H3. unfold parts. right. apply in_or_app. now right.
Qed.

Lemma no_denylisted_entry_witness :
  exists rel,
    rel <> [] /\ lookup example_fs (example_docs ++ rel) <> None
    /\ components "sub/" = rel
    /\ name rel <> ".DS_Store"%string /\ name rel <> "Thumbs.db"%string
    /\ ~ In cache_dir rel
    /\ ~ In cache_dir (parts (example_docs ++ rel)).
Proof.
  refine (no_denylisted_entry no_faults example_zip example_fs example_docs
            {| filename := "sub/"; data := "" |} _ _).
  - reflexivity.
  - vm_compute. tauto.
Defined.




(* ------------------------------------------------------------------ *)
(** ** The order of the archive *)

(** C6, as the specification words it, fails: the walk is not in the order
    of the path strings.  Below the example's source directory lie
    [report/x] and [report.pdf]; the script visits [report/x] first, since
    [report] is a proper prefix of [report.pdf], while as strings
    ["/.../report.pdf"] comes before ["/.../report/x"], the dot being
    smaller than the slash. *)
Lemma string_order_counterexample :
  ~ visits_in_string_order example_fs example_docs
  /\ names (archive_entries no_faults example_zip example_fs example_docs)
     = [".DS_Store/a.txt"; "d/Thumbs.db/x.txt"; "report/x"; "report.pdf";
        "sub/"; "x.txt"]%string
  /\ str_path_lt (example_docs ++ ["report.pdf"]) (example_docs ++ ["report"; "x"])
     = true.
Proof.
  split; [|split]; [|reflexivity|reflexivity].
  unfold visits_in_string_order. vm_compute. discriminate.
Qed.

(** C6.  The order of the archive does not depend on the order in which the
    directories list their entries: whatever two listings of the entries
    of one tree [rglob] returns, the script visits them in the same order,
    ascending by the sequence of path components (each component compared
    as a string), and leaves the same archive, names and contents in the
    same order. *)
Theorem archive_order_deterministic (io : IO) (handle : Path) (fs : node)
        (docs_dir : Path) (listing1 listing2 : list Path) :
  Permutation listing1 (rglob fs docs_dir) ->
  Permutation listing2 (rglob fs docs_dir) ->
  sorted listing1 = sorted listing2
  /\ StronglySorted path_le (sorted listing1)
  /\ archive_listing io handle fs docs_dir listing1
     = archive_listing io handle fs docs_dir listing2
  /\ names (z (snd (archive_listing io handle fs docs_dir listing1)))
     = names (z (snd (archive_listing io handle fs docs_dir listing2))).
Proof.
  intros H1 H2.
  assert (sorted listing1 = sorted listing2) as E.
  { apply sorted_of_perm. now rewrite H1, H2. }
  split; [exact E|]. split; [apply sorted_sorted|].
  unfold archive_listing. rewrite E. split; reflexivity.
Qed.

Lemma archive_order_deterministic_witness :
  sorted (rev (rglob example_fs example_docs)) = sorted (rglob example_fs example_docs)
  /\ names (z (snd (archive_listing no_faults example_zip example_fs example_docs
                      (rev (rglob example_fs example_docs)))))
     = names (z (snd (archive_listing no_faults example_zip example_fs example_docs
                        (rglob example_fs example_docs)))).
Proof.
  destruct (archive_order_deterministic no_faults example_zip example_fs example_docs
              (rev (rglob example_fs example_docs)) (rglob example_fs example_docs))
    as (H1 & _ & _ & H2).
  - symmetry. apply Permutation_rev.
  - reflexivity.
  - split; [exact H1 | exact H2].
Defined.

(* ------------------------------------------------------------------ *)
(** ** Filtering entry by entry and pruning *)

Lemma for_each_skip (io : IO) (handle : Path) (fs : node) (docs_dir : Path)
      (l : list Path) (st : Loop) :
  for_each (visit io handle fs docs_dir) st l
  = for_each (visit io handle fs docs_dir) st (filter (fun p => negb (should_skip p)) l).
Proof.
  revert st. induction l as [|p l IH]; intros st; simpl; [reflexivity|].
  destruct (should_skip p) eqn:E; simpl.
  - unfold visit at 1. rewrite E. apply IH.
  - destruct (visit io handle fs docs_dir st p); [reflexivity | apply IH].
Qed.

Lemma filter_none {A : Type} (f : A -> bool) (l : list A) :
  (forall x, In x l -> f x = false) -> filter f l = [].
Proof.
  induction l as [|x l IH]; simpl; intros H; [reflexivity|].
  rewrite (H x) by now left. apply IH. intros y Hy. apply H. now right.
Qed.

Lemma filter_filter_weaker {A : Type} (f g : A -> bool) (l : list A) :
  (forall x, f x = true -> g x = true) -> filter f (filter g l) = filter f l.
Proof.
  intros H. induction l as [|x l IH]; simpl; [reflexivity|].
  destruct (g x) eqn:G; simpl; [now rewrite IH|].
  destruct (f x) eqn:F; [|assumption].
  apply H in F. congruence.
Qed.

(** Pruning at the cache directories walks exactly the entries with no
    cache component, in the order of the full walk. *)
Lemma walk_prune_cache (n : node) (here : Path) :
  walk_prune has_cache_part here n
  = filter (fun p => negb (has_cache_part p)) (map (app here) (descendants n)).
Proof.
  revert here.
  induction n as [c| |es IH] using node_induction; intros here; try reflexivity.
  induction es as [|[k m] es IHes]; [reflexivity|].
  inversion_clear IH as [|? ? IHm IH'].
  change (walk_prune has_cache_part here (Dir ((k, m) :: es)))
    with ((if has_cache_part (here ++ [k]) then []
           else (here ++ [k]) :: walk_prune has_cache_part (here ++ [k]) m)
          ++ walk_prune has_cache_part here (Dir es)).
  change (descendants (Dir ((k, m) :: es)))
    with (([k] :: map (cons k) (descendants m)) ++ descendants (Dir es)).
  rewrite map_app, filter_app, (IHes IH'). f_equal.
  simpl map. rewrite map_map.
  assert (map (fun x => here ++ k :: x) (descendants m)
          = map (app (here ++ [k])) (descendants m)) as ->.
  { apply map_ext. intros x. now rewrite <- app_assoc. }
  simpl filter. simpl in IHm.
  destruct (has_cache_part (here ++ [k])) eqn:E; simpl.
  - symmetry. apply filter_none. intros x Hx.
    apply in_map_iff in Hx as (y & <- & _).
    now rewrite has_cache_part_app.
  - now rewrite IHm.
Qed.

Lemma rglob_prune_cache (fs : node) (d : Path) :
  rglob_prune has_cache_part fs d
  = filter (fun p => negb (has_cache_part p)) (rglob fs d).
Proof.
  unfold rglob_prune, rglob. destruct (lookup fs d); [|reflexivity].
  apply walk_prune_cache.
Qed.

(** C8, as the specification words it, fails: a walk that does not descend
    into any denylisted directory loses the files inside a directory named
    [.DS_Store], which the script archives. *)
Lemma prune_counterexample :
  ~ prune_equivalent no_faults example_zip example_fs example_docs.
Proof.
  intros H.
  destruct (H {| filename := ".DS_Store/a.txt"; data := "a" |}) as [H1 _].
  assert (In {| filename := ".DS_Store/a.txt"; data := "a" |}
             (z (snd (archive_prune no_faults example_zip should_skip
                        example_fs example_docs)))) as K.
  { apply H1. vm_compute. tauto. }
  vm_compute in K.
  repeat (destruct K as [K|K]; [discriminate K|]).
  exact K.
Qed.

(** C8.  Filtering entry by entry leaves the same archive, entries, order
    and counters, as a walk that never descends into a directory whose
    path has a [__pycache__] component; the denylist of names stays a test
    on each entry by itself. *)
Theorem prune_cache_equivalent (io : IO) (handle : Path) (fs : node) (docs_dir : Path) :
  archive io handle fs docs_dir = archive_prune io handle has_cache_part fs docs_dir.
Proof.
  unfold archive, archive_prune, archive_listing.
  rewrite for_each_skip, (for_each_skip io handle fs docs_dir (sorted (rglob_prune _ _ _))).
  rewrite !filter_sorted, rglob_prune_cache, filter_filter_weaker; [reflexivity|].
  intros p Hp. apply negb_true_iff in Hp. apply negb_true_iff.
  destruct (has_cache_part p) eqn:E; [|reflexivity].
  apply should_skip_cache in E. congruence.
Qed.

(* ------------------------------------------------------------------ *)
(** ** Directories that hold nothing but noise *)

Lemma lookup_child (fs : node) (d : Path) (es : list (string * node))
      (k : string) (t : list string) (x : node) :
  lookup fs d = Some (Dir es) ->
  lookup fs (d ++ k :: t) = Some x ->
  exists m, In (k, m) es /\ lookup m t = Some x.
Proof.
  intros Hd. rewrite lookup_app, Hd. simpl.
  destruct (assoc k es) as [m|] eqn:E; [|discriminate].
  intros Hx. exists m. split; [now apply assoc_In | assumption].
Qed.

Lemma below_prefix (rel : list string) (y : string) :
  rel <> [] -> valid_names rel ->
  split_slash (arcname rel ++ "/" ++ y) = rel ++ split_slash y.
Proof. intros. now apply split_concat_slash. Qed.

Lemma app_last_split (r rel s : list string) (a : string) :
  s <> [] -> r ++ [a] = rel ++ s -> exists s', r = rel ++ s'.
Proof.
  intros Hs E. destruct (exists_last Hs) as (s' & b & ->).
  rewrite app_assoc in E. apply app_inj_tail in E as [-> _]. now exists s'.
Qed.

(** C9, as it is stated, fails: in the example the directory [d] holds
    nothing but a directory named [Thumbs.db], which is denylisted, and yet
    the archive has the entry [d/Thumbs.db/x.txt]. *)
Lemma noise_only_counterexample :
  children_denylisted example_fs (example_docs ++ ["d"])
  /\ ~ absent_from_archive no_faults example_zip example_fs example_docs ["d"].
Proof.
  split.
  - exists [("Thumbs.db", Dir [("x.txt", File "t")])].
    split; [reflexivity|]. split; [discriminate|].
    intros k m [[= <- <-]|[]]. reflexivity.
  - intros H.
    destruct (H {| filename := "d/Thumbs.db/x.txt"; data := "t" |}) as [_ K].
    + vm_compute. tauto.
    + discriminate K.
Qed.

(** C9.  A directory that has children, all of them denylisted, and whose
    child directories are denylisted through a [__pycache__] component of
    their path, is absent from the archive: no entry bears its relative
    path, with or without the slash, and no entry lies below it. *)
Theorem noise_only_dir_absent (io : IO) (handle : Path) (fs : node) (docs_dir : Path)
        (rel : list string) (es : list (string * node)) :
  wf_node fs = true ->
  rel <> [] ->
  lookup fs (docs_dir ++ rel) = Some (Dir es) ->
  es <> [] ->
  (forall k m, In (k, m) es ->
     should_skip (docs_dir ++ rel ++ [k]) = true
     /\ (forall es', m = Dir es' -> has_cache_part (docs_dir ++ rel ++ [k]) = true)) ->
  absent_from_archive io handle fs docs_dir rel.
Proof.
  intros Hw Hne Hd Hes Hkids e He.
  apply In_archive_entries in He as (own & p & Hp & He); [|assumption].
  apply rglob_iff in Hp as (r & -> & Hr & x & Hx); [|assumption].
  apply emit_inv in He as (Hs & Hv & He); [|assumption|assumption].
  assert (valid_names rel) as Hvrel.
  { apply wf_lookup in Hd as [_ H]; [|assumption]. now apply valid_names_app in H. }
  assert (r <> rel) as Hrrel.
  { intros ->. rewrite Hd in He.
    destruct He as [(c & [=] & _)|[[= ->] _]]. contradiction. }
  assert (forall k t, r <> rel ++ k :: t) as Hbelow.
  { intros k t ->.
    rewrite (app_assoc docs_dir rel) in Hx.
    destruct (lookup_child _ _ _ _ _ _ Hd Hx) as (m & Hin & Hm).
    destruct (Hkids _ _ Hin) as [Hsk Hcache].
    destruct t as [|k' t].
    - rewrite Hs in Hsk. discriminate.
    - destruct m as [|es'|]; try discriminate.
      pose proof (Hcache es' eq_refl) as Hc.
      apply (has_cache_part_app _ (k' :: t)), should_skip_cache in Hc.
      rewrite <- !app_assoc in Hc. simpl in Hc. congruence. }
  split.
  - intros E. apply Hrrel.
    apply (arcname_clash r rel (filename e)); auto.
    destruct He as [(c & _ & ->)|[_ ->]]; simpl; auto.
  - destruct (String.prefix (arcname rel ++ "/") (filename e)) eqn:Epre; [|reflexivity].
    exfalso. apply prefix_app in Epre as [y Hy].
    rewrite string_app_assoc in Hy. apply (f_equal split_slash) in Hy.
    rewrite (below_prefix rel y Hne Hvrel) in Hy.
    pose proof (split_slash_nonempty y) as Hny.
    destruct He as [(c & _ & ->)|[_ ->]]; simpl in Hy.
    + unfold arcname in Hy.
      rewrite split_concat in Hy by auto using valid_names_no_slash.
      destruct (split_slash y) as [|k t]; [congruence|]. now apply Hbelow in Hy.
    + change (arcname r ++ "/")%string with (arcname r ++ "/" ++ "")%string in Hy.
      rewrite (below_prefix r "" Hr Hv) in Hy. simpl in Hy.
      apply app_last_split in Hy as ([|k t] & Hy); [|now apply Hbelow in Hy|assumption].
      rewrite app_nil_r in Hy. contradiction.
Qed.

Lemma noise_only_dir_absent_witness :
  absent_from_archive no_faults example_zip example_fs example_docs ["only_noise"].
Proof.
  apply (noise_only_dir_absent no_faults example_zip example_fs example_docs
           ["only_noise"]
           [(".DS_Store", File "n")]).
  - reflexivity.
  - discriminate.
  - reflexivity.
  - discriminate.
  - intros k m [[= <- <-]|[]]. split; [reflexivity | discriminate].
Defined.

(* ------------------------------------------------------------------ *)
(** ** The source directory *)

(** C4.  When the repository root is found and the resolved source
    directory does not exist or is not a directory, [main] raises
    [FileNotFoundError], whose message ends in the path that is missing;
    the process prints it behind [ERROR:] and ends with status 1; the file
    system is as it was: no output directory made, no archive opened. *)
Theorem source_not_found (zip_bytes : list ZipEntry -> bytes) (io : IO)
        (args : Args) (env : Env) (fs : node) (repo_root : Path) :
  find_repo_root (git_toplevel env) fs (script_dir env) = inr repo_root ->
  exists_ fs (docs_dir_of args env repo_root) = false
  \/ is_dir fs (docs_dir_of args env repo_root) = false ->
  main zip_bytes io args env fs
  = (inl (not_found (docs_dir_of args env repo_root)), [], fs)
  /\ run zip_bytes io args env fs
     = {| exit_code := 1;
          stdout := [];
          stderr := [("ERROR: export_data/inspection_reports folder not found: "
                        ++ str (docs_dir_of args env repo_root))%string];
          fs_after := fs |}.
Proof.
  intros Hroot Hdir.
  assert (main zip_bytes io args env fs
          = (inl (not_found (docs_dir_of args env repo_root)), [], fs)) as E.
  { unfold main. rewrite Hroot. cbv zeta.
    destruct Hdir as [-> | ->]; [reflexivity|].
    now rewrite orb_true_r. }
  split; [exact E|]. unfold run. now rewrite E.
Qed.

Lemma source_not_found_witness :
  run listing_bytes no_faults
      {| arg_docs_dir := Some "docs"; arg_out_dir := None; arg_stamp := None |}
      example_env example_fs
  = {| exit_code := 1;
       stdout := [];
       stderr := ["ERROR: export_data/inspection_reports folder not found: /repo/docs"%string];
       fs_after := example_fs |}.
Proof.
  refine (proj2 (source_not_found listing_bytes no_faults
                   {| arg_docs_dir := Some "docs"; arg_out_dir := None; arg_stamp := None |}
                   example_env example_fs ["repo"] _ _)).
  - reflexivity.
  - left. reflexivity.
Defined.

(* ------------------------------------------------------------------ *)
(** ** The repository root *)

Lemma find_first {A : Type} (f : A -> bool) (l : list A) (p : A) :
  find f l = Some p <->
  exists l1 l2, l = l1 ++ p :: l2 /\ f p = true /\ forall q, In q l1 -> f q = false.
Proof.
  induction l as [|x l IH]; simpl.
  - split; [discriminate|]. intros ([|? ?] & l2 & E & _); discriminate.
  - destruct (f x) eqn:Fx.
    + split.
      * intros [= ->]. exists [], l. repeat split; [assumption|]. intros q [].
      * intros ([|y l1] & l2 & E & Fp & Hl1).
        -- now injection E as -> _.
        -- injection E as -> _. rewrite (Hl1 y) in Fx by now left. discriminate.
    + rewrite IH. split.
      * intros (l1 & l2 & -> & Fp & Hl1). exists (x :: l1), l2.
        repeat split; [assumption|]. intros q [<-|Hq]; auto.
      * intros ([|y l1] & l2 & E & Fp & Hl1).
        -- injection E as -> _. congruence.
        -- injection E as -> ->. exists l1, l2. repeat split; [assumption|].
           intros q Hq. apply Hl1. now right.
Qed.

Lemma parents_iff (p q : Path) :
  In q (parents p) <-> exists t, t <> [] /\ p = q ++ t.
Proof.
  revert q. induction p as [|c p IH]; intros q; simpl.
  - split; [contradiction|]. intros (t & Ht & E).
    symmetry in E. apply app_eq_nil in E as [_ ->]. contradiction.
  - rewrite in_app_iff, in_map_iff. split.
    + intros [(q' & <- & Hq')|[<-|[]]].
      * apply IH in Hq' as (t & Ht & ->). now exists t.
      * exists (c :: p). split; [discriminate|reflexivity].
    + intros (t & Ht & E). destruct q as [|c' q]; [right; now left|left].
      injection E as <- ->. exists q. split; [reflexivity|].
      apply IH. now exists t.
Qed.

Lemma parents_lengths (p : Path) :
  map (@List.length string) (p :: parents p) = rev (seq 0 (S (List.length p))).
Proof.
  induction p as [|c p IH]; [reflexivity|].
  change (parents (c :: p)) with (map (cons c) (parents p) ++ [[]]).
  change (seq 0 (S (List.length (c :: p)))) with (0 :: seq 1 (S (List.length p))).
  rewrite <- seq_shift.
  change (rev (0 :: map S (seq 0 (S (List.length p)))))
    with (rev (map S (seq 0 (S (List.length p)))) ++ [0]).
  rewrite <- map_rev, <- IH.
  simpl. f_equal. rewrite !map_app, !map_map. reflexivity.
Qed.

(** C5, as it is stated, fails where it asks for a [.git] that is a
    directory: below a linked worktree, whose [.git] is a regular file,
    the walk stops at the worktree and does not go on to the directory
    that holds the [.git] directory. *)
Lemma git_file_counterexample :
  ~ walk_finds_git_directory worktree_fs ["repo"; "wt"; "admin"]
  /\ find_repo_root None worktree_fs ["repo"; "wt"; "admin"] = inr ["repo"; "wt"]
  /\ is_file worktree_fs ["repo"; "wt"; ".git"] = true
  /\ is_dir worktree_fs ["repo"; ".git"] = true.
Proof.
  split; [|repeat split].
  intros H. specialize (H ["repo"; "wt"] eq_refl). discriminate H.
Qed.

(** C5.  [find_repo_root] first takes what the version-control tool
    answered; without an answer it looks at the starting directory and then
    at each of its ancestors, nearest first, and returns the first that
    holds an entry named [.git], directory or file; when none does it
    raises the root-not-found error, and the run ends there: status 1,
    the error printed, the file system untouched. *)
Theorem repo_root_resolution (git : option Path) (fs : node) (start : Path) :
  (forall top, git = Some top -> find_repo_root git fs start = inr top)
  /\ (forall q, In q (start :: parents start) <-> exists t, start = q ++ t)
  /\ map (@List.length string) (start :: parents start) = rev (seq 0 (S (List.length start)))
  /\ (git = None ->
      forall p, find_repo_root git fs start = inr p
                <-> first_with_git fs p (start :: parents start))
  /\ (git = None ->
      (forall q, In q (start :: parents start) -> exists_ fs (truediv q ".git") = false) ->
      find_repo_root git fs start
      = inl (RuntimeError "Could not find repo root (no git and no .git folder found)"))
  /\ (forall zip_bytes io args env e,
        git_toplevel env = git -> script_dir env = start ->
        find_repo_root git fs start = inl e ->
        run zip_bytes io args env fs
        = {| exit_code := 1; stdout := [];
             stderr := [("ERROR: " ++ exn_str e)%string]; fs_after := fs |}).
Proof.
  split; [now intros top ->|].
  split.
  { intros q. simpl. rewrite parents_iff. split.
    - intros [<-|(t & _ & ->)]; [exists []; now rewrite app_nil_r | now exists t].
    - intros ([|c t] & ->); [left; now rewrite app_nil_r|right].
      exists (c :: t). split; [discriminate|reflexivity]. }
  split; [apply parents_lengths|].
  split; [|split].
  - intros -> p. unfold find_repo_root, first_with_git.
    pose proof (find_first (fun p => exists_ fs (truediv p ".git"))
                  (start :: parents start) p) as F.
    cbv beta in F. rewrite <- F.
    destruct (find _ _); split; congruence.
  - intros -> Hnone. unfold find_repo_root.
    destruct (find _ _) as [p|] eqn:F; [|reflexivity].
    apply find_some in F as [Hin Hp]. rewrite (Hnone p Hin) in Hp. discriminate.
  - intros zip_bytes io args env e <- <- He. unfold run, main. now rewrite He.
Qed.

Lemma repo_root_resolution_witness :
  find_repo_root (Some ["repo"]) worktree_fs ["repo"; "wt"; "admin"] = inr ["repo"]
  /\ first_with_git worktree_fs ["repo"; "wt"]
       (["repo"; "wt"; "admin"] :: parents ["repo"; "wt"; "admin"])
  /\ find_repo_root None (Dir []) ["repo"; "admin"]
     = inl (RuntimeError "Could not find repo root (no git and no .git folder found)").
Proof.
  split; [|split].
  - exact (proj1 (repo_root_resolution (Some ["repo"]) worktree_fs
                    ["repo"; "wt"; "admin"]) ["repo"] eq_refl).
  - destruct (repo_root_resolution None worktree_fs ["repo"; "wt"; "admin"])
      as (_ & _ & _ & H & _).
    apply (H eq_refl ["repo"; "wt"]). reflexivity.
  - destruct (repo_root_resolution None (Dir []) ["repo"; "admin"])
      as (_ & _ & _ & _ & H & _).
    apply (H eq_refl). intros q Hq. simpl in Hq.
    repeat (destruct Hq as [<-|Hq]; [reflexivity|]). contradiction.
Defined.

(* ------------------------------------------------------------------ *)
(** ** The archive path *)








(* ================================================================== *)
(** * Further properties of the script *)

(* ------------------------------------------------------------------ *)
(** ** What the archive holds *)



Lemma emit_length (handle : Path) (own : bytes) (fs : node) (docs_dir p : Path) :
  List.length (emit handle own fs docs_dir p) <= 1.
Proof.
  unfold emit. destruct (should_skip p); simpl; [lia|].
  destruct (relative_to p docs_dir); simpl; [|lia].
  destruct (lookup fs p) as [[c|[|? ?]|]|]; simpl; lia.
Qed.

Lemma NoDup_names_flat_map (f : Path -> list ZipEntry) (l : list Path) :
  NoDup l ->
  (forall p, In p l -> List.length (f p) <= 1) ->
  (forall p q e e', In p l -> In q l -> In e (f p) -> In e' (f q) ->
                    filename e = filename e' -> p = q) ->
  NoDup (names (flat_map f l)).
Proof.
  unfold names. induction 1 as [|x l Hx Hnd IH]; intros Hlen Hinj; simpl; [constructor|].
  rewrite map_app. apply NoDup_app.
  - specialize (Hlen x (or_introl eq_refl)).
    destruct (f x) as [|e [|e' t]]; simpl in *; try lia; repeat constructor; intros [].
  - apply IH.
    + intros p Hp. apply Hlen. now right.
    + intros p q e e' Hp Hq. apply Hinj; now right.
  - intros k Hk Hk'.
    apply in_map_iff in Hk as (e & <- & He).
    apply in_map_iff in Hk' as (e' & E & He').
    apply in_flat_map in He' as (q & Hq & He').
    apply Hx. rewrite (Hinj x q e e'); auto; [now left | now right].
Qed.

Lemma NoDup_app_l {A : Type} (l1 l2 : list A) : NoDup (l1 ++ l2) -> NoDup l1.
Proof.
  induction l1 as [|x l1 IH]; simpl; intros H; [constructor|].
  apply NoDup_cons_iff in H as [Hx H]. constructor; [|auto].
  intros Hin. apply Hx. apply in_or_app. now left.
Qed.

(** No two entries of the archive bear the same name, however the walk
    ends. *)
Theorem archive_names_distinct (io : IO) (handle : Path) (fs : node) (docs_dir : Path) :
  wf_node fs = true -> NoDup (names (archive_entries io handle fs docs_dir)).
Proof.
  intros Hw.
  destruct (archive_walk io handle fs docs_dir Hw) as (own & l1 & l2 & E & -> & _).
  assert (forall p, In p l1 -> In p (rglob fs docs_dir)) as Hsub.
  { intros p Hp. apply In_sorted. rewrite E. apply in_or_app. now left. }
  apply NoDup_names_flat_map.
  - apply (NoDup_app_l l1 l2). rewrite <- E. apply sorted_NoDup, rglob_NoDup, Hw.
  - intros p _. apply emit_length.
  - intros p q e e' Hp Hq He He' Ee.
    apply Hsub, rglob_iff in Hp as (r & -> & Hr & _); [|assumption].
    apply Hsub, rglob_iff in Hq as (r' & -> & Hr' & _); [|assumption].
    apply emit_inv in He as (_ & Hv & He); [|assumption|assumption].
    apply emit_inv in He' as (_ & Hv' & He'); [|assumption|assumption].
    f_equal. apply (arcname_clash r r' (filename e)); auto.
    + destruct He as [(c & _ & ->)|[_ ->]]; simpl; auto.
    + rewrite Ee. destruct He' as [(c & _ & ->)|[_ ->]]; simpl; auto.
Qed.

Lemma archive_names_distinct_witness :
  NoDup (names (archive_entries no_faults example_zip example_fs example_docs)).
Proof.
  apply (archive_names_distinct no_faults example_zip example_fs example_docs).
  reflexivity.
Defined.

Lemma is_absolute_app (x s : string) :
  x <> ""%string -> is_absolute (x ++ s) = is_absolute x.
Proof. destruct x; [congruence|reflexivity]. Qed.

Lemma valid_name_relative (x : string) : valid_name x = true -> is_absolute x = false.
Proof.
  intros H. apply valid_name_inv in H as (Hne & _ & _ & Hs).
  destruct x as [|c x]; [reflexivity|].
  unfold no_slash in Hs. simpl in Hs. apply orb_false_elim in Hs as [Hc _].
  exact Hc.
Qed.

Lemma arcname_relative (rel : list string) (s : string) :
  rel <> [] -> valid_names rel -> is_absolute (arcname rel ++ s) = false.
Proof.
  destruct rel as [|x rel]; [congruence|]. intros _ Hv.
  inversion_clear Hv as [|? ? Hx _].
  unfold arcname. destruct (concat_head x rel) as [t ->].
  rewrite string_app_assoc, is_absolute_app.
  - now apply valid_name_relative.
  - now apply valid_name_inv in Hx.
Qed.

Lemma string_app_empty (s : string) : (s ++ "")%string = s.
Proof. induction s; simpl; congruence. Qed.

Lemma valid_names_no_dotdot (l : list string) : valid_names l -> ~ In ".."%string l.
Proof.
  intros Hv Hin. unfold valid_names in Hv. rewrite Forall_forall in Hv.
  apply Hv in Hin. discriminate Hin.
Qed.

(** Every name in the archive is a relative path that stays inside the
    place it is extracted to: it does not start with a slash and, split at
    the slashes, has no [..] component; the components pathlib reads off
    it are all names a directory can hold. *)
Theorem archive_names_safe (io : IO) (handle : Path) (fs : node) (docs_dir : Path)
        (e : ZipEntry) :
  wf_node fs = true ->
  In e (archive_entries io handle fs docs_dir) ->
  is_absolute (filename e) = false
  /\ ~ In ".."%string (split_slash (filename e))
  /\ components (filename e) <> []
  /\ valid_names (components (filename e)).
Proof.
  intros Hw He.
  apply In_archive_entries in He as (own & p & Hp & He); [|assumption].
  apply rglob_iff in Hp as (rel & -> & Hne & _); [|assumption].
  apply emit_inv in He as (_ & Hv & He); [|assumption|assumption].
  destruct He as [(c & _ & ->)|[_ ->]]; simpl.
  - rewrite <- (string_app_empty (arcname rel)) at 1.
    rewrite arcname_relative by assumption.
    unfold arcname at 1. rewrite split_concat by auto using valid_names_no_slash.
    unfold arcname. rewrite components_concat by assumption.
    auto using valid_names_no_dotdot.
  - rewrite arcname_relative by assumption.
    unfold arcname at 1. rewrite (split_concat_slash rel "" Hne Hv).
    rewrite components_marker by assumption.
    repeat split; auto.
    rewrite in_app_iff. intros [H|[H|[]]]; [|discriminate].
    now apply valid_names_no_dotdot in H.
Qed.

Lemma archive_names_safe_witness :
  is_absolute "d/Thumbs.db/x.txt" = false
  /\ ~ In ".."%string (split_slash "d/Thumbs.db/x.txt")
  /\ components "d/Thumbs.db/x.txt" <> []
  /\ valid_names (components "d/Thumbs.db/x.txt").
Proof.
  refine (archive_names_safe no_faults example_zip example_fs example_docs
            {| filename := "d/Thumbs.db/x.txt"; data := "t" |} _ _).
  - reflexivity.
  - vm_compute. tauto.
Defined.

Lemma seq_lt_app (d r r' : list string) : seq_lt (d ++ r) (d ++ r') = seq_lt r r'.
Proof. induction d as [|c d IH]; simpl; [reflexivity|]. now rewrite String.eqb_refl. Qed.

Lemma emit_components (handle : Path) (own : bytes) (fs : node) (docs_dir : Path)
      (r : list string) (e : ZipEntry) :
  wf_node fs = true -> r <> [] ->
  In e (emit handle own fs docs_dir (docs_dir ++ r)) -> components (filename e) = r.
Proof.
  intros Hw Hne He.
  apply emit_inv in He as (_ & Hv & [(c & _ & ->)|[_ ->]]); try assumption; simpl.
  - now apply components_concat.
  - now apply components_marker.
Qed.

Lemma StronglySorted_flat_map (S : ZipEntry -> ZipEntry -> Prop)
      (f : Path -> list ZipEntry) (l : list Path) :
  StronglySorted path_le l ->
  (forall p, List.length (f p) <= 1) ->
  (forall p q e e', In p l -> In q l -> path_le p q ->
                    In e (f p) -> In e' (f q) -> S e e') ->
  StronglySorted S (flat_map f l).
Proof.
  intros Hs Hlen. induction Hs as [|x l Hs IH Hx]; intros HS; simpl; [constructor|].
  assert (StronglySorted S (flat_map f l)) as Hrest.
  { apply IH. intros p q e e' Hp Hq. apply HS; now right. }
  specialize (Hlen x).
  destruct (f x) as [|e [|e' t]] eqn:Fx; simpl in Hlen; [assumption| |lia].
  simpl. constructor; [assumption|].
  rewrite Forall_forall in *. intros e' He'.
  apply in_flat_map in He' as (q & Hq & He').
  apply (HS x q); auto; [now left | now right | rewrite Fx; now left].
Qed.

Lemma StronglySorted_app_l {A : Type} (R : A -> A -> Prop) (l1 l2 : list A) :
  StronglySorted R (l1 ++ l2) -> StronglySorted R l1.
Proof.
  induction l1 as [|x l1 IH]; simpl; intros H; [constructor|].
  inversion_clear H as [|? ? Hs Hx]. constructor; [auto|].
  rewrite Forall_forall in *. intros y Hy. apply Hx, in_or_app. now left.
Qed.

(** The names in the archive ascend, however the walk ends: read as
    sequences of components, no entry is followed by a smaller one. *)
Theorem archive_names_ascending (io : IO) (handle : Path) (fs : node) (docs_dir : Path) :
  wf_node fs = true -> StronglySorted name_le (archive_entries io handle fs docs_dir).
Proof.
  intros Hw.
  destruct (archive_walk io handle fs docs_dir Hw) as (own & l1 & l2 & E & -> & _).
  assert (forall p, In p l1 -> In p (rglob fs docs_dir)) as Hsub.
  { intros p Hp. apply In_sorted. rewrite E. apply in_or_app. now left. }
  apply StronglySorted_flat_map.
  - apply (StronglySorted_app_l path_le l1 l2). rewrite <- E. apply sorted_sorted.
  - intros p. apply emit_length.
  - intros p q e e' Hp Hq Hle He He'.
    apply Hsub, rglob_iff in Hp as (r & -> & Hr & _); [|assumption].
    apply Hsub, rglob_iff in Hq as (r' & -> & Hr' & _); [|assumption].
    unfold name_le.
    rewrite (emit_components handle own fs docs_dir r e),
      (emit_components handle own fs docs_dir r' e') by assumption.
    unfold path_le in Hle. now rewrite path_lt_seq, seq_lt_app in Hle.
Qed.

Lemma archive_names_ascending_witness :
  StronglySorted name_le (archive_entries no_faults example_zip example_fs example_docs).
Proof.
  apply (archive_names_ascending no_faults example_zip example_fs example_docs).
  reflexivity.
Defined.

(* ------------------------------------------------------------------ *)
(** ** The two counters *)

Lemma emit_length_counted (handle : Path) (own : bytes) (fs : node)
      (docs_dir : Path) (r : list string) :
  List.length (emit handle own fs docs_dir (docs_dir ++ r))
  = (if counted_file fs (docs_dir ++ r) then 1 else 0)
    + (if counted_dir fs (docs_dir ++ r) then 1 else 0).
Proof.
  unfold emit, counted_file, counted_dir, is_empty_dir, is_file.
  destruct (should_skip (docs_dir ++ r)); [reflexivity|].
  rewrite relative_to_app.
  destruct (lookup fs (docs_dir ++ r)) as [[c|[|e es]|]|]; reflexivity.
Qed.

Lemma for_each_length (io : IO) (handle : Path) (fs : node) (docs_dir : Path)
      (l : list Path) (st : Loop) :
  Forall (fun p => exists r, p = docs_dir ++ r) l ->
  fst (for_each (visit io handle fs docs_dir) st l) = None ->
  List.length (z (snd (for_each (visit io handle fs docs_dir) st l)))
  = List.length (z st) + List.length (filter (counted_file fs) l)
    + List.length (filter (counted_dir fs) l).
Proof.
  intros H. revert st.
  induction H as [|p l [r ->] _ IH]; intros st; simpl.
  - intros _. lia.
  - pose proof (visit_spec io handle fs docs_dir st r) as V.
    destruct (fault_at io fs docs_dir (docs_dir ++ r)) as [e|].
    + rewrite V. discriminate.
    + destruct V as (st1 & -> & Z1 & _). intros Hok.
      rewrite (IH st1 Hok), Z1, length_app, emit_length_counted.
      destruct (counted_file fs (docs_dir ++ r)), (counted_dir fs (docs_dir ++ r));
        simpl; lia.
Qed.

Lemma filter_sorted_length (f : Path -> bool) (l : list Path) :
  List.length (filter f (sorted l)) = List.length (filter f l).
Proof. apply Permutation_length, filter_perm, sorted_perm. Qed.

Lemma archive_counts (io : IO) (handle : Path) (fs : node) (docs_dir : Path) :
  fst (archive io handle fs docs_dir) = None ->
  files_added (snd (archive io handle fs docs_dir))
  = List.length (filter (counted_file fs) (rglob fs docs_dir))
  /\ dirs_added (snd (archive io handle fs docs_dir))
     = List.length (filter (counted_dir fs) (rglob fs docs_dir))
  /\ List.length (z (snd (archive io handle fs docs_dir)))
     = List.length (filter (counted_file fs) (rglob fs docs_dir))
       + List.length (filter (counted_dir fs) (rglob fs docs_dir)).
Proof.
  unfold archive, archive_listing. intros Hok.
  destruct (for_each_counts io handle fs docs_dir _ Loop0
              (sorted_rglob_under fs docs_dir) Hok) as [F D].
  pose proof (for_each_length io handle fs docs_dir _ Loop0
                (sorted_rglob_under fs docs_dir) Hok) as L.
  rewrite !filter_sorted_length in *. simpl in *. auto.
Qed.



(* ------------------------------------------------------------------ *)
(** ** What the archive depends on *)

(** Below a source directory whose own path has a [__pycache__] component
    every entry is skipped: the walk archives nothing at all. *)
Theorem cache_source_archives_nothing (io : IO) (handle : Path) (fs : node)
        (docs_dir : Path) :
  has_cache_part docs_dir = true -> archive io handle fs docs_dir = (None, Loop0).
Proof.
  intros Hc. unfold archive, archive_listing.
  rewrite for_each_skip, filter_none; [reflexivity|].
  intros p Hp. apply (proj1 (In_sorted _ _)) in Hp.
  pose proof (rglob_under fs docs_dir) as H. rewrite Forall_forall in H.
  destruct (H p Hp) as [r ->].
  apply negb_false_iff. now apply should_skip_cache, has_cache_part_app.
Qed.

Lemma cache_source_archives_nothing_witness :
  archive no_faults example_zip example_fs (example_docs ++ ["__pycache__"])
  = (None, Loop0).
Proof.
  apply (cache_source_archives_nothing no_faults example_zip example_fs
           (example_docs ++ ["__pycache__"])).
  reflexivity.
Defined.

Lemma for_each_ext (f g : Loop -> Path -> exn + Loop) (l : list Path) (st : Loop) :
  (forall p st', In p l -> f st' p = g st' p) ->
  for_each f st l = for_each g st l.
Proof.
  revert st. induction l as [|p l IH]; intros st H; simpl; [reflexivity|].
  rewrite (H p st) by now left.
  destruct (g st p); [reflexivity|]. apply IH. intros q st' Hq. apply H. now right.
Qed.

Lemma archive_local_lookup (io : IO) (handle : Path) (fs fs' : node) (docs_dir : Path) :
  lookup fs docs_dir = lookup fs' docs_dir ->
  archive io handle fs docs_dir = archive io handle fs' docs_dir.
Proof.
  intros E. unfold archive, archive_listing, rglob. rewrite <- E.
  apply for_each_ext. intros p st Hp.
  apply (proj1 (In_sorted _ _)) in Hp.
  assert (exists r, p = docs_dir ++ r) as [r ->].
  { destruct (lookup fs docs_dir); [|contradiction].
    apply in_map_iff in Hp as (r & <- & _). now exists r. }
  unfold visit, os_is_dir, os_is_file, os_iterdir, zip_write,
    is_dir, iterdir, is_file, read_bytes.
  now rewrite !lookup_app, <- E.
Qed.

(** The archive depends on the source tree alone: two file systems that
    hold the same tree at the source directory give the same archive,
    whatever else they hold. *)
Theorem archive_local (io : IO) (handle : Path) (fs fs' : node) (docs_dir : Path) :
  lookup fs docs_dir = lookup fs' docs_dir ->
  archive io handle fs docs_dir = archive io handle fs' docs_dir.
Proof. apply archive_local_lookup. Qed.

Lemma archive_local_witness :
  archive no_faults example_zip example_fs example_docs
  = archive no_faults example_zip bare_fs example_docs.
Proof.
  apply (archive_local no_faults example_zip example_fs bare_fs example_docs).
  reflexivity.
Defined.

(* ------------------------------------------------------------------ *)
(** ** Where the archive goes *)

Lemma has_char_app (a : ascii) (s t : string) :
  has_char a (s ++ t) = has_char a s || has_char a t.
Proof. induction s as [|c s IH]; simpl; [reflexivity|]. now rewrite IH, orb_assoc. Qed.

Lemma string_length_app (s t : string) :
  String.length (s ++ t) = String.length s + String.length t.
Proof. induction s as [|c s IH]; simpl; [reflexivity|]. now rewrite IH. Qed.

Lemma no_slash_relative (s : string) : no_slash s -> is_absolute s = false.
Proof.
  unfold no_slash. destruct s as [|c s]; simpl; [reflexivity|].
  intros H. now apply orb_false_elim in H as [Hc _].
Qed.

Lemma zip_name_single (s n : string) :
  no_slash s -> no_slash n ->
  is_absolute (s ++ "_" ++ n ++ ".zip") = false
  /\ components (s ++ "_" ++ n ++ ".zip") = [(s ++ "_" ++ n ++ ".zip")%string].
Proof.
  intros Hs Hn.
  assert (no_slash (s ++ "_" ++ n ++ ".zip")) as Hf.
  { unfold no_slash in *. rewrite !has_char_app, Hs, Hn. reflexivity. }
  split; [now apply no_slash_relative|].
  assert (String.length (s ++ "_" ++ n ++ ".zip") >= 5) as Hlen.
  { rewrite !string_length_app. simpl. lia. }
  unfold components. rewrite (split_slash_plain _ Hf).
  remember (s ++ "_" ++ n ++ ".zip")%string as f eqn:Ef. clear Ef.
  assert (kept f = true) as K.
  { unfold kept.
    destruct (String.eqb_spec f "") as [->|_]; [simpl in Hlen; lia|].
    destruct (String.eqb_spec f ".") as [->|_]; [simpl in Hlen; lia|].
    reflexivity. }
  simpl. now rewrite K.
Qed.

(** With a stamp and a repository name that hold no slash, the archive is
    a direct child of the output directory, named
    [<stamp>_<repository>.zip]. *)
Theorem archive_directly_in_out_dir (args : Args) (env : Env) (repo_root : Path) :
  no_slash (stamp_of args env) ->
  no_slash (name repo_root) ->
  zip_path_of args env repo_root
  = out_dir_of args env repo_root
    ++ [(stamp_of args env ++ "_" ++ name repo_root ++ ".zip")%string].
Proof.
  intros Hs Hn. unfold zip_path_of, truediv. cbv zeta.
  destruct (zip_name_single _ _ Hs Hn) as [-> ->]. reflexivity.
Qed.

Lemma archive_directly_in_out_dir_witness :
  zip_path_of no_args example_env ["repo"] = ["repo"; "20261104_repo.zip"].
Proof.
  apply (archive_directly_in_out_dir no_args example_env ["repo"]); reflexivity.
Defined.

(** A stamp that starts with a slash takes the archive out of the output
    directory: the path is read off the file name alone, whatever
    [--out-dir] says. *)
Theorem absolute_stamp_leaves_out_dir (args : Args) (env : Env) (repo_root : Path) :
  is_absolute (stamp_of args env) = true ->
  zip_path_of args env repo_root
  = components (stamp_of args env ++ "_" ++ name repo_root ++ ".zip").
Proof.
  intros Ha. unfold zip_path_of, truediv. cbv zeta.
  rewrite is_absolute_app, Ha; [reflexivity|].
  intros E. rewrite E in Ha. discriminate.
Qed.

Lemma absolute_stamp_leaves_out_dir_witness :
  zip_path_of {| arg_docs_dir := None; arg_out_dir := Some "out"; arg_stamp := Some "/tmp/v1" |}
              example_env ["repo"]
  = ["tmp"; "v1_repo.zip"].
Proof.
  apply (absolute_stamp_leaves_out_dir
           {| arg_docs_dir := None; arg_out_dir := Some "out"; arg_stamp := Some "/tmp/v1" |}
           example_env ["repo"]).
  reflexivity.
Defined.

(* ------------------------------------------------------------------ *)
(** ** How a run ends *)



(** What a run that ends with status 0 leaves: nothing on the error stream;
    two lines printed, the archive path and the two counts, which are the
    numbers of files and of empty directories archived; the archive at its
    path, holding the entries of the walk; the output directory in place. *)
Theorem run_success_outcome (zip_bytes : list ZipEntry -> bytes) (io : IO)
        (args : Args) (env : Env) (fs : node)
        (repo_root handle : Path) (fs2 : node) :
  reaches_walk args env fs repo_root handle fs2 ->
  exit_code (run zip_bytes io args env fs) = 0 ->
  let docs_dir := docs_dir_of args env repo_root in
  let r := run zip_bytes io args env fs in
  stderr r = []
  /\ stdout r
     = [("Created: " ++ zip_path_str args env repo_root)%string;
        ("Added files: "
           ++ show_nat (List.length (filter (counted_file fs2) (rglob fs2 docs_dir)))
           ++ ", empty dirs also kept: "
           ++ show_nat (List.length (filter (counted_dir fs2) (rglob fs2 docs_dir))))%string]
  /\ stat (fs_after r) (zip_path_of args env repo_root)
     = Some (File (zip_bytes (archive_entries io handle fs2 docs_dir)))
  /\ is_dir (fs_after r) (out_dir_of args env repo_root) = true.
Proof.
  intros Hwalk Hok docs_dir r. subst docs_dir r.
  pose proof (archive_written zip_bytes io args env fs repo_root handle fs2 Hwalk) as Hstat.
  apply (run_ok_walk _ _ _ _ _ _ _ _ Hwalk) in Hok.
  destruct (archive_counts io handle fs2 _ Hok) as (F & D & _).
  split; [|split; [|split; [exact Hstat|]]].
  - rewrite (run_of_walk _ _ _ _ _ _ _ _ Hwalk). cbv zeta. now rewrite Hok.
  - rewrite (run_of_walk _ _ _ _ _ _ _ _ Hwalk). cbv zeta. rewrite Hok. simpl.
    unfold report. now rewrite F, D.
  - rewrite (run_of_walk _ _ _ _ _ _ _ _ Hwalk). cbv zeta.
    destruct Hwalk as (fs1 & _ & _ & Hm & Ho).
    destruct (close_w_stat _ _ _ _
                (zip_bytes (z (snd (archive io handle fs2 (docs_dir_of args env repo_root)))))
                Ho) as [_ Hdirs].
    rewrite Hok. simpl. rewrite Hdirs. exact (mkdir_p_is_dir _ _ _ Hm).
Qed.

Lemma run_success_outcome_witness :
  stdout (run listing_bytes no_faults no_args example_env example_fs)
  = ["Created: /repo/20261104_repo.zip";
     "Added files: 5, empty dirs also kept: 1"]%string.
Proof.
  refine (proj1 (proj2
    (run_success_outcome listing_bytes no_faults no_args example_env example_fs
       ["repo"] example_zip _ example_reaches_walk _))); reflexivity.
Defined.




Lemma mkdir_p_blocked (q t : list string) (n x : node) :
  lookup n q = Some x -> (forall es, x <> Dir es) -> mkdir_p n (q ++ t) = None.
Proof.
  revert n. induction q as [|k q IH]; intros n; simpl.
  - intros [= ->] Hx. destruct x as [c|es|], t; try reflexivity; now destruct (Hx es).
  - destruct n as [|es|]; try discriminate.
    destruct (assoc k es) as [m|]; [|discriminate].
    intros Hl Hx. now rewrite (IH _ Hl Hx).
Qed.

(** When a component of the output directory is there and is not a
    directory, the run fails before anything is made: status 1, nothing
    printed on the output stream, the file system as it was. *)
Theorem out_dir_blocked (zip_bytes : list ZipEntry -> bytes) (io : IO)
        (args : Args) (env : Env) (fs : node) (repo_root : Path)
        (q t : list string) (x : node) :
  find_repo_root (git_toplevel env) fs (script_dir env) = inr repo_root ->
  is_dir fs (docs_dir_of args env repo_root) = true ->
  out_dir_of args env repo_root = q ++ t ->
  lookup fs q = Some x ->
  (forall es, x <> Dir es) ->
  exit_code (run zip_bytes io args env fs) = 1
  /\ stdout (run zip_bytes io args env fs) = []
  /\ fs_after (run zip_bytes io args env fs) = fs.
Proof.
  intros Hr Hd Ho Hq Hx. unfold run, main. rewrite Hr. cbv zeta.
  rewrite Hd, (is_dir_exists _ _ Hd), Ho, (mkdir_p_blocked q t fs x Hq Hx).
  simpl. auto.
Qed.

Lemma out_dir_blocked_witness :
  exit_code (run listing_bytes no_faults
               {| arg_docs_dir := None;
                  arg_out_dir := Some "admin/create_zip_for_download.py/out";
                  arg_stamp := None |}
               example_env example_fs) = 1
  /\ fs_after (run listing_bytes no_faults
                 {| arg_docs_dir := None;
                    arg_out_dir := Some "admin/create_zip_for_download.py/out";
                    arg_stamp := None |}
                 example_env example_fs) = example_fs.
Proof.
  destruct (out_dir_blocked listing_bytes no_faults
              {| arg_docs_dir := None;
                 arg_out_dir := Some "admin/create_zip_for_download.py/out";
                 arg_stamp := None |}
              example_env example_fs ["repo"]
              ["repo"; "admin"; "create_zip_for_download.py"] ["out"]
              (File "#!/usr/bin/env python3")) as (H1 & _ & H3).
  - reflexivity.
  - reflexivity.
  - reflexivity.
  - reflexivity.
  - discriminate.
  - split; [exact H1 | exact H3].
Defined.

Lemma write_at_not_file (p : list string) (n x : node) (c : bytes) :
  lookup n p = Some x -> (forall old, x <> File old) -> write_at n p c = None.
Proof.
  revert n. induction p as [|k p IH]; intros n; simpl.
  - intros [= ->] Hx. destruct x as [old|es|]; try reflexivity. now destruct (Hx old).
  - destruct n as [|es|]; try discriminate.
    destruct (assoc k es) as [m|]; [|discriminate].
    intros Hl Hx. now rewrite (IH _ Hl Hx).
Qed.

(** When the archive cannot be opened, because a directory on the way to
    it is missing or because something other than a regular file sits at
    its path, the run fails with status 1 and writes no archive; the output
    directory made just before stays. *)
Theorem archive_open_fails (zip_bytes : list ZipEntry -> bytes) (io : IO)
        (args : Args) (env : Env) (fs : node) (repo_root : Path) (fs1 : node) :
  find_repo_root (git_toplevel env) fs (script_dir env) = inr repo_root ->
  is_dir fs (docs_dir_of args env repo_root) = true ->
  mkdir_p fs (out_dir_of args env repo_root) = Some fs1 ->
  namei fs1 [] (zip_path_of args env repo_root) = None
  \/ (exists x, stat fs1 (zip_path_of args env repo_root) = Some x
                /\ forall old, x <> File old) ->
  exit_code (run zip_bytes io args env fs) = 1
  /\ stdout (run zip_bytes io args env fs) = []
  /\ fs_after (run zip_bytes io args env fs) = fs1
  /\ is_dir fs1 (out_dir_of args env repo_root) = true.
Proof.
  intros Hr Hd Hm Hopen.
  assert (open_w fs1 (zip_path_of args env repo_root) = None) as Ho.
  { unfold open_w. destruct Hopen as [->|(x & Hs & Hx)]; [reflexivity|].
    unfold stat in Hs.
    destruct (namei fs1 [] (zip_path_of args env repo_root)) as [loc|]; [|discriminate].
    now rewrite (write_at_not_file loc fs1 x "" Hs Hx). }
  unfold run, main. rewrite Hr. cbv zeta.
  rewrite Hd, (is_dir_exists _ _ Hd), Hm, Ho. simpl.
  repeat split. exact (mkdir_p_is_dir _ _ _ Hm).
Qed.

Lemma archive_open_fails_witness :
  exit_code (run listing_bytes no_faults
               {| arg_docs_dir := None; arg_out_dir := Some "out";
                  arg_stamp := Some "2026/11" |}
               example_env example_fs) = 1
  /\ is_dir (fs_after (run listing_bytes no_faults
                         {| arg_docs_dir := None; arg_out_dir := Some "out";
                            arg_stamp := Some "2026/11" |}
                         example_env example_fs)) ["repo"; "out"] = true.
Proof.
  destruct (archive_open_fails listing_bytes no_faults
              {| arg_docs_dir := None; arg_out_dir := Some "out";
                 arg_stamp := Some "2026/11" |}
              example_env example_fs ["repo"]
              (match mkdir_p example_fs ["repo"; "out"] with
               | Some fs1 => fs1
               | None => example_fs
               end)) as (H1 & _ & H3 & H4).
  - reflexivity.
  - reflexivity.
  - reflexivity.
  - left. reflexivity.
  - split; [exact H1|]. rewrite H3. exact H4.
Defined.

(* ------------------------------------------------------------------ *)
(** ** What a run leaves alone *)

Lemma mkdir_p_keeps_files (p : list string) (n n' : node) (q : list string) (c : bytes) :
  mkdir_p n p = Some n' -> lookup n q = Some (File c) -> lookup n' q = Some (File c).
Proof.
  revert n n' q. induction p as [|k p IH]; intros n n' q.
  - destruct n; simpl; try discriminate. now intros [= <-].
  - destruct n as [|es|]; simpl; try discriminate.
    destruct (mkdir_p _ p) as [m'|] eqn:M; [|discriminate].
    intros [= <-]. destruct q as [|k2 q]; [discriminate|]. simpl.
    destruct (String.eqb_spec k2 k) as [->|N].
    + rewrite assoc_update_same.
      destruct (assoc k es) as [m|]; [|discriminate]. eauto.
    + now rewrite assoc_update_other.
Qed.

Lemma write_at_other (p : list string) (n n' : node) (c : bytes)
      (q : list string) (d : bytes) :
  write_at n p c = Some n' -> q <> p ->
  lookup n q = Some (File d) -> lookup n' q = Some (File d).
Proof.
  revert n n' q. induction p as [|k p IH]; intros n n' q; simpl.
  - destruct n; try discriminate. intros [= <-] Hq.
    destruct q; [congruence|discriminate].
  - destruct n as [|es|]; try discriminate.
    destruct q as [|k2 q]; [destruct (assoc k es) as [m|];
                            [destruct (write_at m p c)|destruct p]; discriminate|].
    simpl. destruct (String.eqb_spec k2 k) as [->|N].
    + destruct (assoc k es) as [m|] eqn:E; [|discriminate].
      destruct (write_at m p c) as [m'|] eqn:W; [|discriminate].
      intros [= <-] Hq. simpl. rewrite assoc_update_same.
      apply (IH _ _ _ W). congruence.
    + destruct (assoc k es) as [m|] eqn:E.
      * destruct (write_at m p c) as [m'|]; [|discriminate].
        intros [= <-] _. simpl. now rewrite assoc_update_other.
      * destruct p; [|discriminate].
        intros [= <-] _. simpl. now rewrite assoc_update_other.
Qed.

Lemma close_w_is_dir (fs : node) (handle : Path) (c : bytes) (q : Path) :
  is_dir (close_w fs handle c) q = is_dir fs q.
Proof.
  unfold close_w. destruct (write_at fs handle c) eqn:W; [|reflexivity].
  exact (write_at_is_dir _ _ _ _ q W).
Qed.

Lemma close_w_other (fs : node) (handle : Path) (c : bytes) (q : Path) (d : bytes) :
  q <> handle -> lookup fs q = Some (File d) ->
  lookup (close_w fs handle c) q = Some (File d).
Proof.
  unfold close_w. intros Hq Hl.
  destruct (write_at fs handle c) eqn:W; [|assumption].
  exact (write_at_other _ _ _ _ _ _ W Hq Hl).
Qed.

(** The file system a run leaves is the one it found, or that one with the
    output directory made, or that again with the archive written. *)
Lemma fs_after_cases (zip_bytes : list ZipEntry -> bytes) (io : IO)
      (args : Args) (env : Env) (fs : node) :
  fs_after (run zip_bytes io args env fs) = fs
  \/ exists repo_root fs1,
       find_repo_root (git_toplevel env) fs (script_dir env) = inr repo_root
       /\ mkdir_p fs (out_dir_of args env repo_root) = Some fs1
       /\ (fs_after (run zip_bytes io args env fs) = fs1
           \/ exists loc fs2 c,
                namei fs1 [] (zip_path_of args env repo_root) = Some loc
                /\ write_at fs1 loc "" = Some fs2
                /\ fs_after (run zip_bytes io args env fs) = close_w fs2 loc c).
Proof.
  unfold run, main.
  destruct (find_repo_root _ _ _) as [e|repo_root] eqn:R; [now left|].
  cbv zeta.
  destruct (negb (exists_ fs _) || negb (is_dir fs _)); [now left|].
  destruct (mkdir_p fs _) as [fs1|] eqn:M; [|now left].
  right. exists repo_root, fs1. split; [reflexivity|]. split; [exact M|].
  unfold open_w.
  destruct (namei fs1 [] _) as [loc|] eqn:N; [|now left].
  destruct (write_at fs1 loc "") as [fs2|] eqn:W; [|now left].
  right. destruct (archive io loc fs2 _) as [[e|] st]; simpl;
    exists loc, fs2, (zip_bytes (z st)); repeat split; assumption || reflexivity.
Qed.

(** A run removes no directory: whatever was a directory before is one
    after, however the run ends. *)
Theorem run_keeps_directories (zip_bytes : list ZipEntry -> bytes) (io : IO)
        (args : Args) (env : Env) (fs : node) (q : Path) :
  is_dir fs q = true -> is_dir (fs_after (run zip_bytes io args env fs)) q = true.
Proof.
  intros Hq.
  destruct (fs_after_cases zip_bytes io args env fs)
    as [->|(repo_root & fs1 & _ & Hm & [->|(loc & fs2 & c & _ & W & ->)])].
  - assumption.
  - exact (mkdir_p_keeps_dirs _ _ _ _ Hm Hq).
  - rewrite close_w_is_dir, (write_at_is_dir _ _ _ _ q W).
    exact (mkdir_p_keeps_dirs _ _ _ _ Hm Hq).
Qed.

Lemma run_keeps_directories_witness :
  is_dir (fs_after (run listing_bytes no_faults no_args example_env example_fs))
         (example_docs ++ ["sub"]) = true.
Proof.
  apply (run_keeps_directories listing_bytes no_faults no_args example_env example_fs).
  reflexivity.
Defined.

(** A run changes no file but the archive: every regular file that is not
    at the place the archive is opened at has the same bytes after the
    run, however the run ends.  The source files are read, never written. *)
Theorem run_keeps_files (zip_bytes : list ZipEntry -> bytes) (io : IO)
        (args : Args) (env : Env) (fs : node) (q : Path) (c : bytes) :
  lookup fs q = Some (File c) ->
  (forall repo_root fs1,
     find_repo_root (git_toplevel env) fs (script_dir env) = inr repo_root ->
     mkdir_p fs (out_dir_of args env repo_root) = Some fs1 ->
     namei fs1 [] (zip_path_of args env repo_root) <> Some q) ->
  lookup (fs_after (run zip_bytes io args env fs)) q = Some (File c).
Proof.
  intros Hq Hzip.
  destruct (fs_after_cases zip_bytes io args env fs)
    as [->|(repo_root & fs1 & Hr & Hm & [->|(loc & fs2 & c' & N & W & ->)])].
  - assumption.
  - exact (mkdir_p_keeps_files _ _ _ _ _ Hm Hq).
  - assert (q <> loc) as Hne by (intros ->; exact (Hzip _ _ Hr Hm N)).
    apply close_w_other; [assumption|].
    apply (write_at_other _ _ _ _ _ _ W Hne).
    exact (mkdir_p_keeps_files _ _ _ _ _ Hm Hq).
Qed.

Lemma run_keeps_files_witness :
  lookup (fs_after (run listing_bytes no_faults no_args example_env example_fs))
         (example_docs ++ ["x.txt"]) = Some (File "hello").
Proof.
  apply (run_keeps_files listing_bytes no_faults no_args example_env example_fs).
  - reflexivity.
  - intros repo_root fs1 Hr Hm.
    vm_compute in Hr. injection Hr as <-.
    vm_compute in Hm. injection Hm as <-.
    vm_compute. discriminate.
Defined.

(* ------------------------------------------------------------------ *)
(** ** The source tree and the archive written beside it or inside it *)

Lemma mkdir_p_disjoint (p : list string) (n n' : node) (q : list string) :
  mkdir_p n p = Some n' -> (forall t, p <> q ++ t) -> lookup n' q = lookup n q.
Proof.
  revert n n' q. induction p as [|k p IH]; intros n n' q.
  - destruct n; simpl; try discriminate. now intros [= <-].
  - destruct n as [|es|]; simpl; try discriminate.
    destruct (mkdir_p _ p) as [m'|] eqn:M; [|discriminate].
    intros [= <-] Hq. destruct q as [|k2 q]; [now destruct (Hq (k :: p))|].
    simpl. destruct (String.eqb_spec k2 k) as [->|N].
    + rewrite assoc_update_same.
      assert (forall t, p <> q ++ t) as Hq' by (intros t ->; now apply (Hq t)).
      rewrite (IH _ _ _ M Hq').
      destruct (assoc k es) as [m|]; [reflexivity|].
      destruct q as [|k3 q]; [|reflexivity].
      now destruct (Hq p).
    + now rewrite assoc_update_other.
Qed.

Lemma write_at_disjoint (p : list string) (n n' : node) (c : bytes) (q : list string) :
  write_at n p c = Some n' -> (forall t, p <> q ++ t) -> lookup n' q = lookup n q.
Proof.
  revert n n' q. induction p as [|k p IH]; intros n n' q; simpl.
  - destruct n; try discriminate. intros [= <-] Hq.
    destruct q; [now destruct (Hq [])|reflexivity].
  - destruct n as [|es|]; try discriminate.
    intros W Hq. destruct q as [|k2 q]; [now destruct (Hq (k :: p))|].
    assert (forall t, p <> q ++ t \/ k2 <> k) as Hq'.
    { intros t. destruct (String.eqb_spec k2 k) as [->|N]; [left|now right].
      intros ->. now apply (Hq t). }
    destruct (assoc k es) as [m|] eqn:E.
    + destruct (write_at m p c) as [m'|] eqn:Wm; [|discriminate].
      injection W as <-. simpl.
      destruct (String.eqb_spec k2 k) as [->|N].
      * rewrite assoc_update_same, E. apply (IH _ _ _ Wm).
        intros t. destruct (Hq' t); congruence.
      * now rewrite assoc_update_other.
    + destruct p; [|discriminate]. injection W as <-. simpl.
      destruct (String.eqb_spec k2 k) as [->|N].
      * rewrite assoc_update_same, E.
        destruct q as [|k3 q]; [|reflexivity]. now destruct (Hq []).
      * now rewrite assoc_update_other.
Qed.

(** When neither the output directory nor the archive lies in the source
    directory, making the one and opening the other leave the source tree
    as it was, and the walk archives exactly what was there before the
    run. *)
Theorem archive_of_untouched_source (io : IO) (fs fs1 fs2 : node)
        (docs_dir out_dir zip_path handle : Path) :
  mkdir_p fs out_dir = Some fs1 ->
  open_w fs1 zip_path = Some (handle, fs2) ->
  (forall t, out_dir <> docs_dir ++ t) ->
  (forall t, handle <> docs_dir ++ t) ->
  lookup fs2 docs_dir = lookup fs docs_dir
  /\ archive io handle fs2 docs_dir = archive io handle fs docs_dir.
Proof.
  intros Hm Ho Hout Hzip. unfold open_w in Ho.
  destruct (namei fs1 [] zip_path) as [loc|]; [|discriminate].
  destruct (write_at fs1 loc "") as [fs2'|] eqn:W; [|discriminate].
  injection Ho as <- <-.
  assert (lookup fs2' docs_dir = lookup fs docs_dir) as E.
  { rewrite (write_at_disjoint _ _ _ _ _ W Hzip). exact (mkdir_p_disjoint _ _ _ _ Hm Hout). }
  split; [exact E | now apply archive_local_lookup].
Qed.

Lemma archive_of_untouched_source_witness :
  archive no_faults example_zip
          (match open_w example_fs ["repo"; "20261104_repo.zip"] with
           | Some (_, fs2) => fs2
           | None => example_fs
           end) example_docs
  = archive no_faults example_zip example_fs example_docs.
Proof.
  refine (proj2 (archive_of_untouched_source no_faults example_fs example_fs _ example_docs
                   ["repo"] ["repo"; "20261104_repo.zip"] ["repo"; "20261104_repo.zip"]
                   _ _ _ _)).
  - reflexivity.
  - reflexivity.
  - intros t. discriminate.
  - intros t. discriminate.
Defined.

(** An archive opened inside the source directory is found by the walk
    that fills it: when the walk raises nothing and the archive's path is
    not skipped, the archive has exactly one entry under its own name.
    What that entry holds is what the read of the half-written archive
    returned; nothing is said about it. *)
Theorem archive_lists_itself (io : IO) (fs1 fs2 : node)
        (docs_dir zip_path handle : Path) (rel : list string) :
  open_w fs1 zip_path = Some (handle, fs2) ->
  wf_node fs2 = true ->
  fst (archive io handle fs2 docs_dir) = None ->
  handle = docs_dir ++ rel ->
  rel <> [] ->
  should_skip handle = false ->
  exists own,
    named (arcname rel) (archive_entries io handle fs2 docs_dir)
    = [ {| filename := arcname rel; data := own |} ].
Proof.
  intros Ho Hw Hok -> Hne Hs.
  apply open_w_inv in Ho as [_ W]. apply write_at_lookup in W.
  destruct (named_present io (docs_dir ++ rel) fs2 docs_dir rel (File "") (arcname rel))
    as [own E]; auto.
  exists own. rewrite E.
  rewrite (emit_file (docs_dir ++ rel) own fs2 docs_dir rel "") by assumption.
  assert (same_path (docs_dir ++ rel) (docs_dir ++ rel) = true) as ->
      by now apply same_path_iff.
  apply (named_self {| filename := arcname rel; data := own |}).
Qed.

Lemma archive_lists_itself_witness :
  exists own,
    named "own.zip" (archive_entries echo_io (example_docs ++ ["own.zip"])
                       inside_fs example_docs)
    = [ {| filename := "own.zip"; data := own |} ].
Proof.
  apply (archive_lists_itself echo_io example_fs inside_fs example_docs
           (example_docs ++ ["own.zip"]) (example_docs ++ ["own.zip"]) ["own.zip"]);
    try reflexivity; discriminate.
Defined.

Lemma exists_child_is_dir (fs : node) (p : Path) (k : string) :
  exists_ fs (p ++ [k]) = true -> is_dir fs p = true.
Proof.
  unfold exists_, is_dir. rewrite lookup_app.
  destruct (lookup fs p) as [[c|es|]|]; simpl; congruence.
Qed.

(** When the root comes from the walk and no output directory is given,
    the output directory is the root itself, which is there: nothing is
    made, and the archive goes straight into the root. *)
Theorem walk_root_needs_no_mkdir (args : Args) (env : Env) (fs : node)
        (repo_root : Path) :
  find_repo_root None fs (script_dir env) = inr repo_root ->
  truthy (arg_out_dir args) = None ->
  out_dir_of args env repo_root = repo_root
  /\ is_dir fs repo_root = true
  /\ mkdir_p fs (out_dir_of args env repo_root) = Some fs.
Proof.
  intros Hr Ho.
  assert (out_dir_of args env repo_root = repo_root) as E.
  { unfold out_dir_of. rewrite Ho. unfold truediv. simpl. apply app_nil_r. }
  assert (is_dir fs repo_root = true) as D.
  { unfold find_repo_root in Hr.
    destruct (find _ _) as [p|] eqn:F; [|discriminate].
    injection Hr as ->. apply find_some in F as [_ F].
    now apply (exists_child_is_dir fs repo_root ".git"). }
  rewrite E. repeat split; [exact D|]. now apply mkdir_p_exists.
Qed.

Lemma walk_root_needs_no_mkdir_witness :
  mkdir_p example_fs (out_dir_of no_args example_env ["repo"]) = Some example_fs.
Proof.
  refine (proj2 (proj2 (walk_root_needs_no_mkdir no_args example_env example_fs
                          ["repo"] _ _))); reflexivity.
Defined.
